(** * The income-tax calculator of [server.py]

    A shallow embedding of [calculate_tax_old_regime],
    [calculate_tax_new_regime] and the [/calculate-tax] handler
    [calculate_tax], and the properties the specification states of them.

    Numbers.  Every numeric field of [TaxCalculationRequest] and
    [TaxCalculationResponse] is a pydantic [float], that is a Python float: an
    IEEE 754 binary64 value.  They are modelled by Rocq's primitive [float],
    which is the same format with the same correctly rounded operations, so a
    closed term of this file evaluates to the value CPython computes.  The
    integer literals of the source ([250000], [12500], ...) are all exactly
    representable and are converted to float by Python before they meet a
    float operand (and by the response model otherwise), so they are written
    as float literals; [12500 + 100000] is an exact sum either way. *)

From Stdlib Require Import ZArith Floats String Bool Lia.

Set Warnings "-inexact-float".

Local Open Scope float_scope.

(** ** Python built-ins used by the handler *)

Module Py.

(** [max(a, b)]: starts from [a] and replaces it when [b > a]. *)
Definition max (a b : float) : float := if a <? b then b else a.

(** [min(a, b)]: starts from [a] and replaces it when [b < a]. *)
Definition min (a b : float) : float := if b <? a then b else a.

(** Nearest integer to [n / d], ties going to the even one ([0 < d]). *)
Definition round_half_even (n d : Z) : Z :=
  let q := (n / d)%Z in
  match (2 * (n mod d) ?= d)%Z with
  | Lt => q
  | Gt => (q + 1)%Z
  | Eq => if Z.even q then q else (q + 1)%Z
  end.

(** [round(x, ndigits)] on a float, for [0 <= ndigits]: CPython converts the
    exact binary value of [x] to the correctly rounded decimal with [ndigits]
    digits after the point (halves to even) and reads that decimal back as
    the nearest float; zeros, infinities and NaN are returned as they are.
    The decimal is [n / 10^ndigits] for an integer [n], and the correctly
    rounded quotient of [n] by [10^ndigits] is what [SFdiv] computes. *)
Definition round (x : float) (ndigits : Z) : float :=
  match Prim2SF x with
  | S754_finite s m e =>
      let scale := (10 ^ ndigits)%Z in
      let n := match e with
               | Zneg p => round_half_even (Zpos m * scale) (2 ^ Zpos p)
               | _ => (Zpos m * scale * 2 ^ e)%Z
               end in
      match n with
      | Zpos p =>
          SF2Prim (SFdiv prec emax (S754_finite s p 0)
                         (S754_finite false (Z.to_pos scale) 0))
      | _ => SF2Prim (S754_zero s)
      end
  | _ => x
  end.

End Py.

(** ** Models *)

Record TaxCalculationRequest := {
  income : float;
  deductions_80c : float;
  deductions_80d : float;
  hra_exemption : float;
  other_deductions : float;
  regime : string
}.

(** The response's [regime] field is named [regime_echo] here, the request
    having a field of that name already. *)
Record TaxCalculationResponse := {
  gross_income : float;
  total_deductions : float;
  taxable_income : float;
  tax_amount : float;
  cess : float;
  total_tax : float;
  effective_rate : float;
  regime_echo : string
}.

(** ** Helper functions *)

Definition calculate_tax_old_regime (taxable_income : float) : float :=
  if taxable_income <=? 250000 then 0
  else if taxable_income <=? 500000 then (taxable_income - 250000) * 0.05
  else if taxable_income <=? 1000000 then 12500 + (taxable_income - 500000) * 0.20
  else 12500 + 100000 + (taxable_income - 1000000) * 0.30.

Definition calculate_tax_new_regime (taxable_income : float) : float :=
  if taxable_income <=? 300000 then 0
  else if taxable_income <=? 700000 then (taxable_income - 300000) * 0.05
  else if taxable_income <=? 1000000 then 20000 + (taxable_income - 700000) * 0.10
  else if taxable_income <=? 1200000 then
    20000 + 30000 + (taxable_income - 1000000) * 0.15
  else if taxable_income <=? 1500000 then
    20000 + 30000 + 30000 + (taxable_income - 1200000) * 0.20
  else 20000 + 30000 + 30000 + 60000 + (taxable_income - 1500000) * 0.30.

(** ** The [/calculate-tax] route *)

(** The first part of the handler: the regime branch, which fixes
    [total_deductions], [taxable_income] and [tax_amount]. *)
Definition regime_branch (request : TaxCalculationRequest)
  : float * float * float :=
  if (regime request =? "old")%string then
    let total_deductions :=
      Py.min (deductions_80c request) 150000 +
      Py.min (deductions_80d request) 75000 +
      hra_exemption request +
      other_deductions request in
    let taxable_income := Py.max 0 (income request - total_deductions) in
    let tax_amount := calculate_tax_old_regime taxable_income in
    (total_deductions, taxable_income, tax_amount)
  else
    let total_deductions := 75000 in
    let taxable_income := Py.max 0 (income request - total_deductions) in
    let tax_amount := calculate_tax_new_regime taxable_income in
    let tax_amount := if taxable_income <=? 700000 then 0 else tax_amount in
    (total_deductions, taxable_income, tax_amount).

Definition calculate_tax (request : TaxCalculationRequest)
  : TaxCalculationResponse :=
  let '(total_deductions, taxable_income, tax_amount) := regime_branch request in
  let cess := tax_amount * 0.04 in
  let total_tax := tax_amount + cess in
  let effective_rate :=
    if 0 <? income request then total_tax / income request * 100 else 0 in
  {| gross_income := income request;
     total_deductions := total_deductions;
     taxable_income := taxable_income;
     tax_amount := tax_amount;
     cess := cess;
     total_tax := total_tax;
     effective_rate := Py.round effective_rate 2;
     regime_echo := regime request |}.

(** ** Worked examples *)

Definition example_old : TaxCalculationRequest :=
  {| income := 1200000; deductions_80c := 200000; deductions_80d := 30000;
     hra_exemption := 50000; other_deductions := 0; regime := "old" |}.

(** C1: the end-to-end example of the specification.  Old regime, gross
    income 1,200,000, 80C 200,000 (capped to 150,000), 80D 30,000, HRA 50,000,
    nothing else: deductions 230,000, taxable income 970,000, base tax
    106,500, cess 4,260, total tax 110,760, effective rate 9.23. *)
Theorem C1_end_to_end_example :
  let r := calculate_tax example_old in
  total_deductions r = 230000 /\
  taxable_income r = 970000 /\
  tax_amount r = 106500 /\
  cess r = 4260 /\
  total_tax r = 110760 /\
  effective_rate r = 9.23.
Proof. vm_compute. repeat split. Qed.

(** ** Order facts on floats

    The primitive comparisons are specified by [FloatAxioms] through
    [SFcompare] on the decoded value. *)

Lemma ltb_leb (a b : float) : (a <? b) = true -> (a <=? b) = true.
Proof.
  rewrite ltb_spec, leb_spec. unfold SFltb, SFleb.
  destruct (SFcompare (Prim2SF a) (Prim2SF b)) as [[ | | ] | ];
    intros H; try reflexivity; discriminate H.
Qed.

Lemma eqb_zero_not_pos (x : float) : (x =? 0) = true -> (0 <? x) = false.
Proof.
  rewrite FloatAxioms.eqb_spec, ltb_spec. unfold SFeqb, SFltb.
  change (Prim2SF 0) with (S754_zero false).
  destruct (Prim2SF x) as [s | s | | s m e]; simpl;
    try destruct s; intros H; try reflexivity; discriminate H.
Qed.

Lemma max_zero_nonneg (x : float) : (0 <=? Py.max 0 x) = true.
Proof.
  unfold Py.max. destruct (0 <? x) eqn:E.
  - now apply ltb_leb.
  - reflexivity.
Qed.

(** ** The regime branch, one regime at a time *)

Lemma regime_branch_old (request : TaxCalculationRequest) :
  regime request = "old"%string ->
  regime_branch request =
    let total_deductions :=
      Py.min (deductions_80c request) 150000 +
      Py.min (deductions_80d request) 75000 +
      hra_exemption request + other_deductions request in
    let taxable_income := Py.max 0 (income request - total_deductions) in
    (total_deductions, taxable_income, calculate_tax_old_regime taxable_income).
Proof. intros H. unfold regime_branch. now rewrite H. Qed.

Lemma regime_branch_new (request : TaxCalculationRequest) :
  regime request <> "old"%string ->
  regime_branch request =
    let taxable_income := Py.max 0 (income request - 75000) in
    (75000, taxable_income,
     if taxable_income <=? 700000 then 0
     else calculate_tax_new_regime taxable_income).
Proof.
  intros H. unfold regime_branch.
  destruct (String.eqb_spec (regime request) "old") as [E | _];
    [contradiction | reflexivity].
Qed.

(** The response in terms of the regime branch. *)
Lemma calculate_tax_fields (request : TaxCalculationRequest) :
  let r := calculate_tax request in
  (total_deductions r, taxable_income r, tax_amount r) = regime_branch request /\
  gross_income r = income request /\
  cess r = tax_amount r * 0.04 /\
  total_tax r = tax_amount r + cess r /\
  effective_rate r =
    Py.round (if 0 <? income request
              then total_tax r / income request * 100 else 0) 2 /\
  regime_echo r = regime request.
Proof.
  unfold calculate_tax.
  destruct (regime_branch request) as [[d t] a]. cbn.
  repeat split.
Qed.

Definition new_request (gross : float) : TaxCalculationRequest :=
  {| income := gross; deductions_80c := 0; deductions_80d := 0;
     hra_exemption := 0; other_deductions := 0; regime := "new" |}.

Definition old_request (gross : float) : TaxCalculationRequest :=
  {| income := gross; deductions_80c := 0; deductions_80d := 0;
     hra_exemption := 0; other_deductions := 0; regime := "old" |}.

(** The rebate under section 87A, as the handler applies it. *)
Lemma rebate_zero (request : TaxCalculationRequest) :
  regime request <> "old"%string ->
  (taxable_income (calculate_tax request) <=? 700000) = true ->
  tax_amount (calculate_tax request) = 0.
Proof.
  intros Hnew.
  destruct (calculate_tax_fields request) as (Hb & _).
  rewrite (regime_branch_new request Hnew) in Hb. cbv zeta in Hb.
  injection Hb as _ Ht Ha. rewrite Ht, Ha. intros ->. reflexivity.
Qed.

(** ** The claims of the specification *)

(** C2: under the new regime (any regime other than "old"), a taxable income
    of at most 700,000, the bound included, gives a base tax of 0 whatever
    the bracket formula computes. *)
Theorem C2_new_regime_rebate (request : TaxCalculationRequest) :
  regime request <> "old"%string ->
  (taxable_income (calculate_tax request) <=? 700000) = true ->
  tax_amount (calculate_tax request) = 0.
Proof. exact (rebate_zero request). Qed.

(** At the boundary: gross income 775,000 leaves exactly 700,000 taxable. *)
Lemma C2_new_regime_rebate_witness :
  taxable_income (calculate_tax (new_request 775000)) = 700000 /\
  calculate_tax_new_regime 700000 = 20000 /\
  tax_amount (calculate_tax (new_request 775000)) = 0.
Proof.
  split; [reflexivity | split; [reflexivity | ]].
  apply (C2_new_regime_rebate (new_request 775000)).
  - discriminate.
  - reflexivity.
Defined.

(** C3: under the new regime the total deduction is the flat 75,000 and the
    itemised inputs (80C, 80D, HRA, other) change no field of the response. *)
Theorem C3_new_regime_flat_deduction
    (gross c d h o c' d' h' o' : float) (rg : string) :
  rg <> "old"%string ->
  total_deductions (calculate_tax (Build_TaxCalculationRequest gross c d h o rg))
    = 75000 /\
  calculate_tax (Build_TaxCalculationRequest gross c d h o rg) =
  calculate_tax (Build_TaxCalculationRequest gross c' d' h' o' rg).
Proof.
  intros Hnew. unfold calculate_tax.
  rewrite !regime_branch_new by exact Hnew. cbn. split; reflexivity.
Qed.

Lemma C3_new_regime_flat_deduction_witness :
  total_deductions
    (calculate_tax (Build_TaxCalculationRequest 1200000 200000 30000 50000 10 "new"))
    = 75000 /\
  calculate_tax (Build_TaxCalculationRequest 1200000 200000 30000 50000 10 "new") =
  calculate_tax (Build_TaxCalculationRequest 1200000 0 0 0 0 "new").
Proof.
  apply (C3_new_regime_flat_deduction
           1200000 200000 30000 50000 10 0 0 0 0 "new").
  discriminate.
Defined.

(** C5, as the specification states it, fails: a taxable income of 700,001
    (gross income 775,001 under the new regime) is taxed in the 10% bracket
    that starts at 700,000, so the base tax is not 20,000.05. *)
Lemma C5_just_above_rebate_counterexample :
  taxable_income (calculate_tax (new_request 775001)) = 700001 /\
  tax_amount (calculate_tax (new_request 775001)) <> 20000.05 /\
  tax_amount (calculate_tax (new_request 775001)) <> (700001 - 300000) * 0.05.
Proof.
  split; [reflexivity | split]; intros H;
    apply (f_equal (fun x => Leibniz.eqb x 20000.1)) in H;
    vm_compute in H; discriminate H.
Qed.

(** C5, amended: when the new-regime taxable income is exactly 700,001 the
    rebate does not apply and the base tax is [20000 + (700001 - 700000) * 0.10],
    which is 20,000.1. *)
Theorem C5_just_above_rebate (request : TaxCalculationRequest) :
  regime request <> "old"%string ->
  taxable_income (calculate_tax request) = 700001 ->
  tax_amount (calculate_tax request) = 20000 + (700001 - 700000) * 0.10 /\
  tax_amount (calculate_tax request) = 20000.1 /\
  tax_amount (calculate_tax request) = calculate_tax_new_regime 700001.
Proof.
  intros Hnew.
  destruct (calculate_tax_fields request) as (Hb & _).
  rewrite (regime_branch_new request Hnew) in Hb. cbv zeta in Hb.
  injection Hb as _ Ht Ha. rewrite Ht, Ha. intros ->.
  repeat split.
Qed.

Lemma C5_just_above_rebate_witness :
  tax_amount (calculate_tax (new_request 775001)) = 20000 + (700001 - 700000) * 0.10 /\
  tax_amount (calculate_tax (new_request 775001)) = 20000.1 /\
  tax_amount (calculate_tax (new_request 775001)) = calculate_tax_new_regime 700001.
Proof.
  apply (C5_just_above_rebate (new_request 775001)).
  - discriminate.
  - reflexivity.
Defined.

(** C6: in both regimes the cess is the product of the returned base tax
    (the value after the rebate) by 0.04 and the total tax is base tax plus
    cess; when the new-regime rebate applies the cess and the total are 0. *)
Theorem C6_cess_and_total (request : TaxCalculationRequest) :
  let r := calculate_tax request in
  cess r = tax_amount r * 0.04 /\
  total_tax r = tax_amount r + cess r /\
  (regime request <> "old"%string ->
   (taxable_income r <=? 700000) = true ->
   tax_amount r = 0 /\ cess r = 0 /\ total_tax r = 0).
Proof.
  intros r.
  destruct (calculate_tax_fields request) as (_ & _ & Hc & Ht & _).
  fold r in Hc, Ht. repeat split; try assumption.
  - now apply rebate_zero.
  - rewrite Hc. subst r. now rewrite rebate_zero.
  - rewrite Ht, Hc. subst r. now rewrite rebate_zero.
Qed.

Lemma C6_cess_and_total_witness :
  let r := calculate_tax (new_request 775000) in
  cess r = tax_amount r * 0.04 /\
  total_tax r = tax_amount r + cess r /\
  tax_amount r = 0 /\ cess r = 0 /\ total_tax r = 0.
Proof.
  destruct (C6_cess_and_total (new_request 775000)) as (Hc & Ht & Hz).
  split; [exact Hc | split; [exact Ht | ]].
  apply Hz; [discriminate | reflexivity].
Defined.

(** C7: a gross income of 0 (either zero of the format) gives an effective
    rate of 0 whatever the other fields and the regime are, no division being
    made; a positive gross income gives [round(total_tax / income * 100, 2)]. *)
Theorem C7_effective_rate (request : TaxCalculationRequest) :
  let r := calculate_tax request in
  ((income request =? 0) = true -> effective_rate r = 0) /\
  ((0 <? income request) = true ->
   effective_rate r = Py.round (total_tax r / income request * 100) 2).
Proof.
  intros r.
  destruct (calculate_tax_fields request) as (_ & _ & _ & _ & He & _).
  fold r in He. split; intros H.
  - apply eqb_zero_not_pos in H. rewrite H in He. exact He.
  - rewrite H in He. exact He.
Qed.

Lemma C7_effective_rate_witness :
  effective_rate
    (calculate_tax (Build_TaxCalculationRequest 0 200000 30000 50000 7 "old")) = 0 /\
  effective_rate (calculate_tax (new_request (-0))) = 0 /\
  effective_rate (calculate_tax example_old) =
    Py.round (total_tax (calculate_tax example_old) / 1200000 * 100) 2.
Proof.
  split; [ | split].
  - apply (C7_effective_rate
             (Build_TaxCalculationRequest 0 200000 30000 50000 7 "old")).
    reflexivity.
  - apply (C7_effective_rate (new_request (-0))). reflexivity.
  - apply (C7_effective_rate example_old). reflexivity.
Defined.

(** C8: old regime, no deductions: the base tax is 0 at a gross income of
    250,000, 12,500 at 500,000 and 112,500 at 1,000,000. *)
Theorem C8_old_regime_bracket_bounds :
  tax_amount (calculate_tax (old_request 250000)) = 0 /\
  tax_amount (calculate_tax (old_request 500000)) = 12500 /\
  tax_amount (calculate_tax (old_request 1000000)) = 112500.
Proof. vm_compute. repeat split. Qed.

(** C9: a regime string other than "old" ("OLD", "New", anything) is not
    refused: the response is the one the string "new" gives, computed with
    the flat 75,000 deduction, the new-regime brackets and the rebate, except
    that the regime field repeats the string received. *)
Theorem C9_unrecognized_regime_is_new (request : TaxCalculationRequest) :
  regime request <> "old"%string ->
  let r := calculate_tax request in
  let r_new := calculate_tax (new_request (income request)) in
  let t := Py.max 0 (income request - 75000) in
  total_deductions r = 75000 /\
  taxable_income r = t /\
  tax_amount r =
    (if t <=? 700000 then 0 else calculate_tax_new_regime t) /\
  regime_echo r = regime request /\
  r = {| gross_income := gross_income r_new;
         total_deductions := total_deductions r_new;
         taxable_income := taxable_income r_new;
         tax_amount := tax_amount r_new;
         cess := cess r_new;
         total_tax := total_tax r_new;
         effective_rate := effective_rate r_new;
         regime_echo := regime request |}.
Proof.
  intros Hnew. unfold calculate_tax.
  rewrite (regime_branch_new request Hnew).
  rewrite (regime_branch_new (new_request (income request))) by discriminate.
  cbn. repeat split.
Qed.

Lemma C9_unrecognized_regime_is_new_witness :
  let r := calculate_tax (Build_TaxCalculationRequest 1200000 200000 30000 50000 0 "OLD") in
  total_deductions r = 75000 /\
  taxable_income r = 1125000 /\
  tax_amount r = 68750 /\
  regime_echo r = "OLD"%string.
Proof.
  destruct (C9_unrecognized_regime_is_new
              (Build_TaxCalculationRequest 1200000 200000 30000 50000 0 "OLD"))
    as (Hd & Ht & Ha & He & _).
  - discriminate.
  - split; [exact Hd | split; [exact Ht | split; [exact Ha | exact He]]].
Defined.

(** C10: the taxable income of every response is at least 0, whatever the
    request holds: negative income, negative deductions, infinities or NaN. *)
Theorem C10_taxable_income_nonneg (request : TaxCalculationRequest) :
  (0 <=? taxable_income (calculate_tax request)) = true.
Proof.
  destruct (calculate_tax_fields request) as (Hb & _).
  unfold regime_branch in Hb.
  destruct (regime request =? "old")%string; cbv zeta in Hb;
    injection Hb as _ Ht _; rewrite Ht; apply max_zero_nonneg.
Qed.

(** * Binary64 arithmetic: order and rounding

    What the remaining properties need of the float operations: a float
    comparison is the comparison of integer keys, and sums, differences and
    products are correct roundings of the exact results, so they are
    non-decreasing in each operand.  Everything is derived from the
    specification of the primitive operations ([FloatAxioms], [SpecFloat]). *)

Module Binary64.

Local Open Scope Z_scope.

(** ** Number of binary digits *)
Lemma digits2_size (m : positive) : digits2_pos m = Pos.size m.
Proof. induction m; simpl; congruence. Qed.

Lemma digits2_bounds (m : positive) :
  2 ^ (Zpos (digits2_pos m) - 1) <= Zpos m < 2 ^ Zpos (digits2_pos m).
Proof.
  rewrite digits2_size.
  pose proof (Pos.size_gt m) as Hgt. pose proof (Pos.size_le m) as Hle.
  apply Pos2Z.pos_lt_pos in Hgt. apply Pos2Z.pos_le_pos in Hle.
  rewrite Pos2Z.inj_pow in Hgt, Hle.
  change (Z.pos m~0) with (2 * Z.pos m) in Hle.
  split; [ | exact Hgt].
  assert (H : 2 ^ Z.pos (Pos.size m) = 2 * 2 ^ (Z.pos (Pos.size m) - 1)).
  { rewrite <- Z.pow_succ_r by lia. f_equal. lia. }
  lia.
Qed.

(** ** Shifting right

    [shr_inv m k mrs]: [mrs] is [m] shifted right by [k] bits, its round and
    sticky bits telling where the bits dropped lie against half a unit. *)
Definition shr_inv (m k : Z) (mrs : shr_record) : Prop :=
  0 <= shr_m mrs /\
  0 <= m - shr_m mrs * 2 ^ k < 2 ^ k /\
  match shr_r mrs, shr_s mrs with
  | false, false => m - shr_m mrs * 2 ^ k = 0
  | false, true => 0 < 2 * (m - shr_m mrs * 2 ^ k) < 2 ^ k
  | true, false => 2 * (m - shr_m mrs * 2 ^ k) = 2 ^ k
  | true, true => 2 ^ k < 2 * (m - shr_m mrs * 2 ^ k)
  end.

Lemma shr_inv_init (m : Z) : 0 <= m -> shr_inv m 0 (Build_shr_record m false false).
Proof. intros H. unfold shr_inv. cbn [shr_m shr_r shr_s]. rewrite Z.pow_0_r. lia. Qed.

Lemma shr_inv_step (m k : Z) (mrs : shr_record) :
  0 <= k -> shr_inv m k mrs -> shr_inv m (k + 1) (shr_1 mrs).
Proof.
  intros Hk (Hm & Hrho & Hloc).
  assert (Hp : 2 ^ (k + 1) = 2 * 2 ^ k) by (rewrite Z.pow_add_r by lia; lia).
  assert (Hpos : 0 < 2 ^ k) by (apply Z.pow_pos_nonneg; lia).
  destruct mrs as [mm r s]. unfold shr_inv in *.
  cbn [shr_m shr_r shr_s] in Hm, Hrho, Hloc.
  rewrite Hp. generalize dependent (2 ^ k). intros P Hrho Hloc _ HP.
  destruct mm as [ | [p | p | ] | p ]; try lia;
    cbn [shr_1 shr_m shr_r shr_s];
    try pose proof (Pos2Z.inj_xI p) as Hx; try pose proof (Pos2Z.inj_xO p) as Hy;
    destruct r, s; cbn [orb]; lia.
Qed.

Lemma shr_inv_iter (m : Z) (p : positive) :
  forall (k : Z) (mrs : shr_record),
    0 <= k -> shr_inv m k mrs -> shr_inv m (k + Zpos p) (iter_pos shr_1 p mrs).
Proof.
  induction p as [p IH | p IH | ]; intros k mrs Hk H; cbn [iter_pos].
  - replace (k + Z.pos p~1) with (k + 1 + Z.pos p + Z.pos p) by lia.
    apply IH; [lia | ]. apply IH; [lia | ]. now apply shr_inv_step.
  - replace (k + Z.pos p~0) with (k + Z.pos p + Z.pos p) by lia.
    apply IH; [lia | ]. now apply IH.
  - now apply shr_inv_step.
Qed.

Definition rne_spec (m n q : Z) : Prop :=
  2 * Z.abs (q * 2 ^ n - m) <= 2 ^ n /\
  (2 * Z.abs (q * 2 ^ n - m) = 2 ^ n -> Z.even q = true).

Lemma round_nearest_even_spec (m k : Z) (mrs : shr_record) :
  0 <= k -> shr_inv m k mrs ->
  0 <= round_nearest_even (shr_m mrs) (loc_of_shr_record mrs) /\
  rne_spec m k (round_nearest_even (shr_m mrs) (loc_of_shr_record mrs)).
Proof.
  intros Hk (Hm & Hrho & Hloc).
  assert (Hpos : 0 < 2 ^ k) by (apply Z.pow_pos_nonneg; lia).
  destruct mrs as [mm r s]. cbn [shr_m shr_r shr_s] in *. unfold rne_spec.
  generalize dependent (2 ^ k). intros P Hrho Hloc HP.
  destruct r, s; cbn [loc_of_shr_record round_nearest_even].
  - split; [lia | split; lia].
  - destruct (Z.even mm) eqn:E.
    + split; [lia | split; [lia | auto]].
    + split; [lia | split; [lia | ]]. intros _.
      rewrite Z.even_add, E. reflexivity.
  - split; [lia | split; lia].
  - split; [lia | split; lia].
Qed.

(** ** Scaled powers of two

    Values are compared as integers after scaling by [2 ^ bias]; every
    exponent the operations meet on binary64 operands is above [- bias]. *)
Definition bias : Z := 2200.
Definition pw (e : Z) : Z := 2 ^ (e + bias).

Lemma pw_pos (e : Z) : - bias <= e -> 0 < pw e.
Proof. intros H. unfold pw. apply Z.pow_pos_nonneg; lia. Qed.

Lemma pw_add (e n : Z) : - bias <= e -> 0 <= n -> pw (e + n) = pw e * 2 ^ n.
Proof.
  intros He Hn. unfold pw.
  replace (e + n + bias) with ((e + bias) + n) by lia.
  apply Z.pow_add_r; lia.
Qed.

Lemma pw_succ (e : Z) : - bias <= e -> pw (e + 1) = 2 * pw e.
Proof. intros He. rewrite pw_add by lia. lia. Qed.

Lemma pw_le (e1 e2 : Z) : - bias <= e1 -> e1 <= e2 -> pw e1 <= pw e2.
Proof. intros H1 H2. unfold pw. apply Z.pow_le_mono_r; lia. Qed.

Lemma pw_lt (e1 e2 : Z) : - bias <= e1 -> e1 < e2 -> pw e1 < pw e2.
Proof. intros H1 H2. unfold pw. apply Z.pow_lt_mono_r; lia. Qed.

Lemma pw_lt_inv (e1 e2 : Z) : - bias <= e2 -> pw e1 < pw e2 -> e1 < e2.
Proof.
  intros H2 H. destruct (Z.lt_ge_cases e1 e2) as [Hlt | Hge]; [exact Hlt | ].
  pose proof (pw_le e2 e1 H2 Hge). lia.
Qed.

Definition fx (g : Z) : Z := SpecFloat.fexp prec emax g.

Lemma fx_eq (g : Z) : fx g = Z.max (g - 53) (-1074).
Proof. reflexivity. Qed.

Definition mag_spec (X g : Z) : Prop := - bias <= g - 1 /\ pw (g - 1) <= X < pw g.

Definition rnd_spec (X c q : Z) : Prop :=
  2 * Z.abs (q * pw c - X) <= pw c /\
  (2 * Z.abs (q * pw c - X) = pw c -> Z.even q = true).

Lemma mag_le (X1 X2 g1 g2 : Z) :
  mag_spec X1 g1 -> mag_spec X2 g2 -> X1 <= X2 -> g1 <= g2.
Proof.
  intros (Hb1 & Hl1 & Hu1) (Hb2 & Hl2 & Hu2) HX.
  assert (H : pw (g1 - 1) < pw g2) by lia.
  apply pw_lt_inv in H; lia.
Qed.

(** Bounds on the rounded mantissa, and rounding to nearest is monotone. *)
Lemma rnd_upper (X g q : Z) :
  mag_spec X g -> rnd_spec X (fx g) q -> fx g <= g -> q <= 2 ^ (g - fx g).
Proof.
  intros (Hb & Hl & Hu) (Hr & _) Hc.
  assert (Hcb : - bias <= fx g) by (rewrite fx_eq; unfold bias; lia).
  pose proof (pw_pos (fx g) Hcb) as Hp.
  assert (Hg : pw g = pw (fx g) * 2 ^ (g - fx g)).
  { rewrite <- pw_add by lia. f_equal. lia. }
  rewrite Hg in Hu. nia.
Qed.

Lemma rnd_tiny (X g q : Z) :
  mag_spec X g -> rnd_spec X (fx g) q -> 0 <= q -> g < fx g -> q = 0.
Proof.
  intros (Hb & Hl & Hu) (Hr & _) Hq Hc.
  assert (Hp : 0 < pw g) by (apply pw_pos; lia).
  assert (Hg : pw (fx g) = pw g * 2 ^ (fx g - g)).
  { rewrite <- pw_add by lia. f_equal. lia. }
  assert (H2 : 2 <= 2 ^ (fx g - g)).
  { change 2 with (2 ^ 1) at 1. apply Z.pow_le_mono_r; lia. }
  rewrite Hg in Hr. nia.
Qed.

Lemma rnd_lower (X g q : Z) :
  mag_spec X g -> rnd_spec X (fx g) q -> fx g <= g - 1 ->
  2 ^ (g - 1 - fx g) <= q.
Proof.
  intros (Hb & Hl & Hu) (Hr & _) Hc.
  assert (Hcb : - bias <= fx g) by (rewrite fx_eq; unfold bias; lia).
  pose proof (pw_pos (fx g) Hcb) as Hp.
  assert (Hg : pw (g - 1) = pw (fx g) * 2 ^ (g - 1 - fx g)).
  { rewrite <- pw_add by lia. f_equal. lia. }
  rewrite Hg in Hl. nia.
Qed.

Lemma rnd_mono (X1 X2 g1 g2 q1 q2 : Z) :
  mag_spec X1 g1 -> mag_spec X2 g2 ->
  rnd_spec X1 (fx g1) q1 -> rnd_spec X2 (fx g2) q2 ->
  0 <= q1 -> X1 <= X2 ->
  q1 * pw (fx g1) <= q2 * pw (fx g2).
Proof.
  intros M1 M2 R1 R2 Hq1 HX.
  pose proof (mag_le _ _ _ _ M1 M2 HX) as Hg.
  assert (Hc1 : - bias <= fx g1) by (rewrite fx_eq; unfold bias; lia).
  assert (Hc2 : - bias <= fx g2) by (rewrite fx_eq; unfold bias; lia).
  assert (Hc : fx g1 <= fx g2) by (rewrite !fx_eq; lia).
  destruct (Z.eq_dec (fx g1) (fx g2)) as [E | NE].
  - rewrite <- E in *. pose proof (pw_pos _ Hc1) as Hp.
    destruct R1 as (Ha1 & He1), R2 as (Ha2 & He2).
    destruct (Z.le_gt_cases q1 q2) as [Hle | Hgt]; [nia | exfalso].
    assert (Hq : q1 = q2 + 1) by nia.
    assert (T1 : 2 * Z.abs (q1 * pw (fx g1) - X1) = pw (fx g1)) by nia.
    assert (T2 : 2 * Z.abs (q2 * pw (fx g1) - X2) = pw (fx g1)) by nia.
    specialize (He1 T1). specialize (He2 T2).
    rewrite Hq, Z.even_add, He2 in He1. discriminate He1.
  - assert (Hlt : fx g1 < fx g2) by lia.
    assert (Hg2 : fx g2 = g2 - 53) by (rewrite !fx_eq in *; lia).
    assert (Hg12 : g1 <= g2 - 1) by (rewrite !fx_eq in *; lia).
    pose proof (rnd_lower _ _ _ M2 R2 ltac:(lia)) as Hlow.
    assert (Hmid : pw (g2 - 1) <= q2 * pw (fx g2)).
    { replace (g2 - 1) with (fx g2 + (g2 - 1 - fx g2)) at 1 by lia.
      rewrite pw_add by lia. pose proof (pw_pos _ Hc2). nia. }
    apply Z.le_trans with (2 := Hmid).
    destruct M1 as (Hb1 & Hl1 & Hu1), M2 as (Hb2 & Hl2 & Hu2).
    assert (HA : pw (g2 - 1) = pw (fx g1) * 2 ^ (g2 - 1 - fx g1)).
    { rewrite <- pw_add by lia. f_equal. lia. }
    assert (Hgg : pw g1 <= pw (g2 - 1)) by (apply pw_le; lia).
    pose proof (pw_pos _ Hc1) as Hp. destruct R1 as (Ha1 & _).
    rewrite HA in *.
    remember (2 ^ (g2 - 1 - fx g1)) as N eqn:EN.
    remember (pw (fx g1)) as P eqn:EP.
    destruct (Z.le_gt_cases q1 N) as [Hle | Hgt]; [nia | exfalso].
    assert (HPN : (N + 1) * P <= q1 * P) by (apply Z.mul_le_mono_nonneg_r; lia).
    lia.
Qed.

(** ** Keys

    [SFkey f] is the scaled value of [f], the infinities standing at
    [2 ^ emax]; on valid floats [SFcompare] compares keys. *)
Definition SFkey (f : spec_float) : Z :=
  match f with
  | S754_zero _ | S754_nan => 0
  | S754_infinity s => cond_Zopp s (pw emax)
  | S754_finite s m e => cond_Zopp s (Zpos m * pw e)
  end.

Definition SFnotnan (f : spec_float) : Prop := f <> S754_nan.

Lemma pw_emax_pos : 0 < pw emax.
Proof. apply pw_pos. unfold bias, emax. lia. Qed.

Lemma valid_finite_inv (s : bool) (m : positive) (e : Z) :
  valid_binary (S754_finite s m e) = true ->
  -1074 <= e <= 971 /\ Zpos (digits2_pos m) <= 53 /\
  (Zpos (digits2_pos m) = 53 \/ e = -1074) /\
  fx (Zpos (digits2_pos m) + e) = e.
Proof.
  cbn [SpecFloat.valid_binary]. unfold bounded, canonical_mantissa.
  intros H. apply andb_true_iff in H. destruct H as (Hc & Hb).
  apply Z.eqb_eq in Hc. apply Z.leb_le in Hb.
  change (SpecFloat.fexp prec emax (Z.pos (digits2_pos m) + e))
    with (fx (Z.pos (digits2_pos m) + e)) in Hc.
  split; [ | split; [ | split; [ | exact Hc]]];
    rewrite fx_eq in Hc; unfold emax, prec in Hb; lia.
Qed.

Lemma finite_mag (m : positive) (e : Z) :
  - bias <= e ->
  mag_spec (Zpos m * pw e) (Zpos (digits2_pos m) + e).
Proof.
  intros He. pose proof (digits2_bounds m) as (Hl & Hu).
  pose proof (pw_pos e He) as Hp.
  unfold mag_spec. split; [lia | ].
  replace (Z.pos (digits2_pos m) + e - 1) with (e + (Z.pos (digits2_pos m) - 1)) by lia.
  replace (Z.pos (digits2_pos m) + e) with (e + Z.pos (digits2_pos m)) by lia.
  rewrite !pw_add by lia. nia.
Qed.

Lemma finite_key_bounds (s : bool) (m : positive) (e : Z) :
  valid_binary (S754_finite s m e) = true ->
  0 < Zpos m * pw e < pw emax /\
  (-1074 < e -> pw (e + 52) <= Zpos m * pw e).
Proof.
  intros Hv. apply valid_finite_inv in Hv. destruct Hv as (He & Hd & Hn & _).
  assert (Hb : - bias <= e) by (unfold bias; lia).
  pose proof (finite_mag m e Hb) as (_ & Hl & Hu).
  pose proof (pw_pos e Hb) as Hp.
  split; [split; [lia | ] | ].
  - apply Z.lt_le_trans with (1 := Hu). apply pw_le; unfold emax; lia.
  - intros Hne. assert (Hd53 : Z.pos (digits2_pos m) = 53) by lia.
    rewrite Hd53 in Hl. replace (53 + e - 1) with (e + 52) in Hl by lia. exact Hl.
Qed.

Lemma finite_lt_exp (m1 m2 : positive) (e1 e2 : Z) (s1 s2 : bool) :
  valid_binary (S754_finite s1 m1 e1) = true ->
  valid_binary (S754_finite s2 m2 e2) = true ->
  e1 < e2 -> Zpos m1 * pw e1 < Zpos m2 * pw e2.
Proof.
  intros H1 H2 He.
  pose proof (finite_key_bounds _ _ _ H2) as (_ & Hlow).
  apply valid_finite_inv in H1, H2.
  destruct H1 as (He1 & Hd1 & _), H2 as (He2 & _).
  assert (Hb : - bias <= e1) by (unfold bias; lia).
  pose proof (finite_mag m1 e1 Hb) as (_ & _ & Hu).
  specialize (Hlow ltac:(lia)).
  apply Z.lt_le_trans with (1 := Hu).
  apply Z.le_trans with (2 := Hlow). apply pw_le; lia.
Qed.

Lemma SFcompare_key (f1 f2 : spec_float) :
  valid_binary f1 = true -> valid_binary f2 = true ->
  SFnotnan f1 -> SFnotnan f2 ->
  SFcompare f1 f2 = Some (SFkey f1 ?= SFkey f2).
Proof.
  intros V1 V2 N1 N2. pose proof pw_emax_pos as HP.
  destruct f1 as [s1 | s1 | | s1 m1 e1]; [ | | now elim N1 | ];
    (destruct f2 as [s2 | s2 | | s2 m2 e2]; [ | | now elim N2 | ]);
    try pose proof (finite_key_bounds _ _ _ V1) as ((B1 & B1') & _);
    try pose proof (finite_key_bounds _ _ _ V2) as ((B2 & B2') & _);
    cbn [SFcompare SFkey]; f_equal; symmetry.
  - destruct s2; cbn [cond_Zopp]; [apply Z.compare_gt_iff | apply Z.compare_lt_iff]; lia.
  - destruct s2; cbn [cond_Zopp]; [apply Z.compare_gt_iff | apply Z.compare_lt_iff]; lia.
  - destruct s1; cbn [cond_Zopp]; [apply Z.compare_lt_iff | apply Z.compare_gt_iff]; lia.
  - destruct s1, s2; cbn [cond_Zopp];
      [apply Z.compare_eq_iff | apply Z.compare_lt_iff
       | apply Z.compare_gt_iff | apply Z.compare_eq_iff]; lia.
  - destruct s1, s2; cbn [cond_Zopp];
      [apply Z.compare_lt_iff | apply Z.compare_lt_iff
       | apply Z.compare_gt_iff | apply Z.compare_gt_iff]; lia.
  - destruct s1; cbn [cond_Zopp]; [apply Z.compare_lt_iff | apply Z.compare_gt_iff]; lia.
  - destruct s1, s2; cbn [cond_Zopp];
      [apply Z.compare_gt_iff | apply Z.compare_lt_iff
       | apply Z.compare_gt_iff | apply Z.compare_lt_iff]; lia.
  - assert (Hsame : forall (ma mb : positive) (ea eb : Z) (sa sb : bool),
               valid_binary (S754_finite sa ma ea) = true ->
               valid_binary (S754_finite sb mb eb) = true ->
               (Zpos ma * pw ea ?= Zpos mb * pw eb) =
               match ea ?= eb with
               | Lt => Lt | Gt => Gt | Eq => Pos.compare_cont Eq ma mb
               end).
    { intros ma mb ea eb sa sb Va Vb.
      destruct (Z.compare_spec ea eb) as [E | L | G].
      - subst eb. apply valid_finite_inv in Va. destruct Va as (Hea & _).
        assert (Hp : 0 < pw ea) by (apply pw_pos; unfold bias; lia).
        change (Pos.compare_cont Eq ma mb) with (Zpos ma ?= Zpos mb).
        destruct (Z.compare_spec (Zpos ma) (Zpos mb)) as [E' | L' | G'].
        + apply Z.compare_eq_iff. now rewrite E'.
        + apply Z.compare_lt_iff. nia.
        + apply Z.compare_gt_iff. nia.
      - apply Z.compare_lt_iff. now apply finite_lt_exp with sa sb.
      - apply Z.compare_gt_iff. now apply finite_lt_exp with sb sa. }
    destruct s1, s2; cbn [cond_Zopp].
    + rewrite Z.compare_opp. rewrite (Hsame m2 m1 e2 e1 true true V2 V1).
      rewrite (Z.compare_antisym e1 e2).
      destruct (e1 ?= e2); cbn [CompOpp]; try reflexivity.
      rewrite (Pos.compare_cont_antisym m1 m2 Eq). reflexivity.
    + apply Z.compare_lt_iff. lia.
    + apply Z.compare_gt_iff. lia.
    + apply (Hsame m1 m2 e1 e2 false false V1 V2).
Qed.

(** ** [binary_round_aux] on an exact input *)
Lemma shr_spec (m e n : Z) :
  0 <= m -> 0 <= n ->
  exists mrs, shr (Build_shr_record m false false) e n = (mrs, e + n) /\
              shr_inv m n mrs.
Proof.
  intros Hm Hn. destruct n as [ | p | p]; [ | | lia].
  - exists (Build_shr_record m false false). split.
    + cbn [shr]. f_equal. lia.
    + now apply shr_inv_init.
  - exists (iter_pos shr_1 p (Build_shr_record m false false)). split.
    + reflexivity.
    + apply (shr_inv_iter m p 0); [lia | now apply shr_inv_init].
Qed.

(** The last step of [binary_round_aux]: renormalisation and overflow. *)
Definition finish (sx : bool) (q c : Z) : spec_float :=
  let '(mrs, e) := shr_fexp prec emax q c loc_Exact in
  match shr_m mrs with
  | Z0 => S754_zero sx
  | Zpos m => if e <=? emax - prec then S754_finite sx m e else S754_infinity sx
  | Zneg _ => S754_nan
  end.

Lemma finish_key (sx : bool) (q c : Z) :
  0 <= q <= 2 ^ 53 -> -1074 <= c -> (-1074 < c -> 2 ^ 52 <= q) ->
  SFnotnan (finish sx q c) /\
  SFkey (finish sx q c) = cond_Zopp sx (Z.min (q * pw c) (pw emax)).
Proof.
  intros Hq Hc Hn. pose proof pw_emax_pos as HE.
  assert (Hcb : - bias <= c) by (unfold bias; lia).
  pose proof (pw_pos c Hcb) as Hp.
  unfold finish, shr_fexp. change (SpecFloat.fexp prec emax) with fx.
  destruct q as [ | p | p]; [ | | lia].
  - cbn [Zdigits2 shr_record_of_loc]. rewrite fx_eq.
    destruct (Z.max (0 + c - 53) (-1074) - c) eqn:En; [ | lia | ];
      cbn [shr shr_m SFkey]; (split; [discriminate | ]);
      rewrite Z.min_l by lia; now destruct sx.
  - cbn [Zdigits2 shr_record_of_loc]. rewrite fx_eq.
    pose proof (digits2_bounds p) as (Hl & Hu).
    destruct (Z_le_gt_dec (Z.pos (digits2_pos p)) 53) as [Hd | Hd].
    + assert (Hu' : Z.pos p < 2 ^ 53).
      { apply Z.lt_le_trans with (1 := Hu). apply Z.pow_le_mono_r; lia. }
      destruct (Z.max (Z.pos (digits2_pos p) + c - 53) (-1074) - c) eqn:En;
        [ | lia | ]; cbn [shr shr_m].
      * destruct (Z.leb_spec c (emax - prec)) as [Hle | Hgt];
          change (emax - prec) with 971 in *; (split; [discriminate | ]); cbn [SFkey]; f_equal.
        -- rewrite Z.min_l; [reflexivity | ].
           assert (pw c * 2 ^ 53 <= pw emax).
           { rewrite <- pw_add by lia. apply pw_le; unfold emax; lia. }
           nia.
        -- rewrite Z.min_r; [reflexivity | ].
           assert (pw emax <= pw c * 2 ^ 52).
           { rewrite <- pw_add by lia. apply pw_le; unfold emax, bias; lia. }
           specialize (Hn ltac:(lia)). nia.
      * destruct (Z.leb_spec c (emax - prec)) as [Hle | Hgt];
          change (emax - prec) with 971 in *; (split; [discriminate | ]); cbn [SFkey]; f_equal.
        -- rewrite Z.min_l; [reflexivity | ].
           assert (pw c * 2 ^ 53 <= pw emax).
           { rewrite <- pw_add by lia. apply pw_le; unfold emax; lia. }
           nia.
        -- rewrite Z.min_r; [reflexivity | ].
           assert (pw emax <= pw c * 2 ^ 52).
           { rewrite <- pw_add by lia. apply pw_le; unfold emax, bias; lia. }
           specialize (Hn ltac:(lia)). nia.
    + assert (Hp53 : 2 ^ 53 <= Z.pos p).
      { apply Z.le_trans with (2 := Hl). apply Z.pow_le_mono_r; lia. }
      assert (Ep : p = 9007199254740992%positive) by lia.
      subst p. change (digits2_pos 9007199254740992) with 54%positive.
      replace (Z.max (54 + c - 53) (-1074) - c) with 1 by lia.
      cbn [shr iter_pos shr_1 shr_m].
      destruct (Z.leb_spec (c + 1) (emax - prec)) as [Hle | Hgt];
        change (emax - prec) with 971 in *; (split; [discriminate | ]); cbn [SFkey]; f_equal.
      * rewrite pw_succ by lia.
        rewrite Z.min_l; [lia | ].
        assert (pw c * 2 ^ 53 < pw emax).
        { rewrite <- pw_add by lia. apply pw_lt; unfold emax; lia. }
        lia.
      * rewrite Z.min_r; [reflexivity | ].
        assert (pw emax <= pw c * 2 ^ 53).
        { rewrite <- pw_add by lia. apply pw_le; unfold emax, bias; lia. }
        lia.
Qed.

(** [k] is the key of a correct rounding of the scaled value [X > 0]. *)
Definition rounded_pos (X k : Z) : Prop :=
  exists g q, mag_spec X g /\ rnd_spec X (fx g) q /\ 0 <= q /\
              k = Z.min (q * pw (fx g)) (pw emax).

Lemma rne_rnd (m e n q : Z) :
  - bias <= e -> 0 <= n -> rne_spec m n q -> rnd_spec (m * pw e) (e + n) q.
Proof.
  intros He Hn (Ha & Ht). pose proof (pw_pos e He) as Hp.
  assert (Hd : q * pw (e + n) - m * pw e = (q * 2 ^ n - m) * pw e).
  { rewrite pw_add by lia. ring. }
  unfold rnd_spec. rewrite Hd, Z.abs_mul, (Z.abs_eq (pw e)) by lia.
  rewrite pw_add by lia. split.
  - nia.
  - intros H. apply Ht.
    apply Z.mul_reg_r with (pw e); [lia | ]. lia.
Qed.

Lemma binary_round_aux_key (sx : bool) (m : positive) (e : Z) :
  - bias <= e -> e <= fx (Zpos (digits2_pos m) + e) ->
  SFnotnan (binary_round_aux prec emax sx (Zpos m) e loc_Exact) /\
  exists k, rounded_pos (Zpos m * pw e) k /\
            SFkey (binary_round_aux prec emax sx (Zpos m) e loc_Exact)
            = cond_Zopp sx k.
Proof.
  intros He Hc.
  set (g := Zpos (digits2_pos m) + e) in *.
  assert (Hn0 : 0 <= fx g - e) by lia.
  destruct (shr_spec (Zpos m) e (fx g - e) (Pos2Z.is_nonneg m) Hn0)
    as (mrs & Hshr & Hinv).
  replace (e + (fx g - e)) with (fx g) in Hshr by lia.
  pose proof (round_nearest_even_spec _ _ _ Hn0 Hinv) as (Hq & Hrne).
  set (q := round_nearest_even (shr_m mrs) (loc_of_shr_record mrs)) in *.
  assert (Hfin : binary_round_aux prec emax sx (Zpos m) e loc_Exact
                 = finish sx q (fx g)).
  { unfold binary_round_aux, finish, shr_fexp at 1.
    cbn [Zdigits2 shr_record_of_loc].
    change (SpecFloat.fexp prec emax (Z.pos (digits2_pos m) + e)) with (fx g).
    rewrite Hshr. reflexivity. }
  rewrite Hfin.
  pose proof (finite_mag m e He) as Hmag. fold g in Hmag.
  pose proof (rne_rnd _ e _ _ He Hn0 Hrne) as Hrnd.
  replace (e + (fx g - e)) with (fx g) in Hrnd by lia.
  assert (Hup : q <= 2 ^ 53).
  { destruct (Z_le_gt_dec (fx g) g) as [Hle | Hgt].
    - apply Z.le_trans with (1 := rnd_upper _ _ _ Hmag Hrnd Hle).
      apply Z.pow_le_mono_r; [lia | rewrite fx_eq; lia].
    - rewrite (rnd_tiny _ _ _ Hmag Hrnd Hq ltac:(lia)). lia. }
  assert (Hlow : -1074 < fx g -> 2 ^ 52 <= q).
  { intros Hn. assert (Hg : fx g = g - 53) by (rewrite fx_eq in *; lia).
    pose proof (rnd_lower _ _ _ Hmag Hrnd ltac:(lia)) as H.
    replace (g - 1 - fx g) with 52 in H by lia. exact H. }
  destruct (finish_key sx q (fx g) ltac:(lia) ltac:(rewrite fx_eq; lia) Hlow)
    as (Hnn & Hkey).
  split; [exact Hnn | ].
  exists (Z.min (q * pw (fx g)) (pw emax)). split; [ | exact Hkey].
  exists g, q. split; [exact Hmag | split; [exact Hrnd | split; [exact Hq | reflexivity]]].
Qed.

Lemma rounded_pos_nonneg (X k : Z) : rounded_pos X k -> 0 <= k.
Proof.
  intros (g & q & _ & _ & Hq & ->). pose proof pw_emax_pos.
  assert (- bias <= fx g) by (rewrite fx_eq; unfold bias; lia).
  pose proof (pw_pos (fx g) ltac:(assumption)). nia.
Qed.

Lemma rounded_pos_mono (X1 X2 k1 k2 : Z) :
  rounded_pos X1 k1 -> rounded_pos X2 k2 -> X1 <= X2 -> k1 <= k2.
Proof.
  intros (g1 & q1 & M1 & R1 & Hq1 & ->) (g2 & q2 & M2 & R2 & Hq2 & ->) HX.
  pose proof (rnd_mono _ _ _ _ _ _ M1 M2 R1 R2 Hq1 HX). lia.
Qed.

(** [k] is the key of a correct rounding of the scaled value [X]. *)
Definition rounded (X k : Z) : Prop :=
  (X = 0 /\ k = 0) \/ (0 < X /\ rounded_pos X k) \/ (X < 0 /\ rounded_pos (- X) (- k)).

Lemma rounded_mono (X1 X2 k1 k2 : Z) :
  rounded X1 k1 -> rounded X2 k2 -> X1 <= X2 -> k1 <= k2.
Proof.
  intros [(Z1 & K1) | [(P1 & R1) | (N1 & R1)]]
         [(Z2 & K2) | [(P2 & R2) | (N2 & R2)]] HX;
    try lia;
    try pose proof (rounded_pos_nonneg _ _ R1);
    try pose proof (rounded_pos_nonneg _ _ R2); try lia.
  - now apply rounded_pos_mono with X1 X2.
  - pose proof (rounded_pos_mono _ _ _ _ R2 R1 ltac:(lia)). lia.
Qed.

Lemma rounded_opp (X k : Z) : rounded X k -> rounded (- X) (- k).
Proof.
  intros [(Z1 & K1) | [(P1 & R1) | (N1 & R1)]]; unfold rounded.
  - left. lia.
  - right. right. split; [lia | ]. now rewrite !Z.opp_involutive.
  - right. left. split; [lia | exact R1].
Qed.

(** ** Alignment, [binary_round] and [binary_normalize] *)
Lemma iter_xO_value (m d : positive) :
  Zpos (Pos.iter xO m d) = Zpos m * 2 ^ Zpos d.
Proof.
  induction d as [ | d IH] using Pos.peano_ind.
  - cbn [Pos.iter]. rewrite Pos2Z.inj_xO. lia.
  - rewrite Pos.iter_succ, Pos2Z.inj_xO, IH, Pos2Z.inj_succ, Z.pow_succ_r by lia. ring.
Qed.

Lemma iter_xO_digits (m d : positive) :
  Zpos (digits2_pos (Pos.iter xO m d)) = Zpos (digits2_pos m) + Zpos d.
Proof.
  induction d as [ | d IH] using Pos.peano_ind.
  - cbn [Pos.iter digits2_pos]. lia.
  - rewrite Pos.iter_succ. cbn [digits2_pos]. lia.
Qed.

Lemma shl_align_spec (mx : positive) (ex ex' : Z) :
  snd (shl_align mx ex ex') = Z.min ex ex' /\
  Zpos (fst (shl_align mx ex ex')) = Zpos mx * 2 ^ (ex - Z.min ex ex') /\
  Zpos (digits2_pos (fst (shl_align mx ex ex')))
  = Zpos (digits2_pos mx) + (ex - Z.min ex ex').
Proof.
  unfold shl_align. destruct (ex' - ex) as [ | d | d] eqn:E; cbn [fst snd].
  - replace (Z.min ex ex') with ex by lia. rewrite Z.sub_diag. cbn. lia.
  - replace (Z.min ex ex') with ex by lia. rewrite Z.sub_diag. cbn. lia.
  - replace (Z.min ex ex') with ex' by lia.
    replace (ex - ex') with (Zpos d) by lia.
    rewrite iter_xO_value, iter_xO_digits. lia.
Qed.

Lemma shl_align_key (mx : positive) (ex ex' : Z) :
  - bias <= Z.min ex ex' ->
  Zpos (fst (shl_align mx ex ex')) * pw (Z.min ex ex') = Zpos mx * pw ex.
Proof.
  intros Hb. destruct (shl_align_spec mx ex ex') as (_ & Hv & _).
  assert (Hp : pw ex = pw (Z.min ex ex') * 2 ^ (ex - Z.min ex ex')).
  { rewrite <- pw_add by lia. f_equal. lia. }
  rewrite Hv, Hp. ring.
Qed.

Lemma binary_round_key (sx : bool) (m : positive) (e : Z) :
  - bias <= e ->
  SFnotnan (binary_round prec emax sx m e) /\
  exists k, rounded_pos (Zpos m * pw e) k /\
            SFkey (binary_round prec emax sx m e) = cond_Zopp sx k.
Proof.
  intros He. unfold binary_round.
  change (SpecFloat.fexp prec emax (Z.pos (digits2_pos m) + e))
    with (fx (Z.pos (digits2_pos m) + e)).
  set (c := fx (Z.pos (digits2_pos m) + e)).
  destruct (shl_align_spec m e c) as (He' & Hv & Hd).
  assert (Hb : - bias <= Z.min e c) by (unfold c; rewrite fx_eq; unfold bias in *; lia).
  pose proof (shl_align_key m e c Hb) as Hk.
  destruct (shl_align m e c) as [mz ez]. cbn [fst snd] in *. subst ez.
  rewrite <- Hk. apply binary_round_aux_key; [exact Hb | ].
  rewrite Hd. replace (Z.pos (digits2_pos m) + (e - Z.min e c) + Z.min e c)
    with (Z.pos (digits2_pos m) + e) by lia.
  fold c. lia.
Qed.

Lemma binary_normalize_key (M E : Z) (sz : bool) :
  - bias <= E ->
  SFnotnan (binary_normalize prec emax M E sz) /\
  rounded (M * pw E) (SFkey (binary_normalize prec emax M E sz)).
Proof.
  intros He. pose proof (pw_pos E He) as Hp.
  destruct M as [ | m | m]; cbn [binary_normalize].
  - split; [discriminate | left; split; reflexivity].
  - destruct (binary_round_key false m E He) as (Hn & k & Hr & Hk).
    split; [exact Hn | ]. right. left. split; [lia | ].
    rewrite Hk. exact Hr.
  - destruct (binary_round_key true m E He) as (Hn & k & Hr & Hk).
    split; [exact Hn | ]. right. right. split; [lia | ].
    rewrite Hk. cbn [cond_Zopp]. rewrite Z.opp_involutive.
    replace (- (Z.neg m * pw E)) with (Z.pos m * pw E) by lia. exact Hr.
Qed.

(** ** Finite values *)
Definition SFfin (f : spec_float) : Prop :=
  match f with
  | S754_zero _ | S754_finite _ _ _ => True
  | _ => False
  end.

Lemma SFclass (f : spec_float) :
  SFnotnan f -> f = S754_infinity true \/ f = S754_infinity false \/ SFfin f.
Proof.
  destruct f as [s | [ | ] | | s m e]; intros H; cbn; auto.
Qed.

Lemma fin_key_range (f : spec_float) :
  valid_binary f = true -> SFfin f -> - pw emax < SFkey f < pw emax.
Proof.
  pose proof pw_emax_pos.
  destruct f as [s | s | | s m e]; cbn [SFfin SFkey]; intros V F; try lia; try easy.
  pose proof (finite_key_bounds _ _ _ V) as (B & _).
  destruct s; cbn [cond_Zopp]; lia.
Qed.

Lemma key_range (f : spec_float) :
  valid_binary f = true -> - pw emax <= SFkey f <= pw emax.
Proof.
  pose proof pw_emax_pos. intros V.
  destruct f as [s | s | | s m e]; try (cbn [SFkey]; lia).
  - destruct s; cbn [SFkey cond_Zopp]; lia.
  - pose proof (fin_key_range _ V I). lia.
Qed.

Lemma SFleb_key (f1 f2 : spec_float) :
  valid_binary f1 = true -> valid_binary f2 = true ->
  SFnotnan f1 -> SFnotnan f2 ->
  SFleb f1 f2 = (SFkey f1 <=? SFkey f2).
Proof.
  intros V1 V2 N1 N2. unfold SFleb. rewrite SFcompare_key by assumption.
  unfold Z.leb. now destruct (SFkey f1 ?= SFkey f2).
Qed.

Lemma SFltb_key (f1 f2 : spec_float) :
  valid_binary f1 = true -> valid_binary f2 = true ->
  SFnotnan f1 -> SFnotnan f2 ->
  SFltb f1 f2 = (SFkey f1 <? SFkey f2).
Proof.
  intros V1 V2 N1 N2. unfold SFltb. rewrite SFcompare_key by assumption.
  unfold Z.ltb. now destruct (SFkey f1 ?= SFkey f2).
Qed.

Lemma SFleb_notnan (f1 f2 : spec_float) :
  SFleb f1 f2 = true -> SFnotnan f1 /\ SFnotnan f2.
Proof.
  unfold SFleb, SFnotnan.
  destruct f1 as [ | | | ]; destruct f2 as [ | | | ]; cbn [SFcompare];
    intros H; try discriminate H; split; discriminate.
Qed.

Lemma SFltb_notnan (f1 f2 : spec_float) :
  SFltb f1 f2 = true -> SFnotnan f1 /\ SFnotnan f2.
Proof.
  unfold SFltb, SFnotnan.
  destruct f1 as [ | | | ]; destruct f2 as [ | | | ]; cbn [SFcompare];
    intros H; try discriminate H; split; discriminate.
Qed.

Lemma key_pinf (f : spec_float) :
  valid_binary f = true -> SFnotnan f -> pw emax <= SFkey f -> f = S754_infinity false.
Proof.
  intros V N H. pose proof pw_emax_pos.
  destruct (SFclass f N) as [-> | [-> | F]]; [ | reflexivity | ].
  - cbn [SFkey cond_Zopp] in H. lia.
  - pose proof (fin_key_range f V F). lia.
Qed.

Lemma key_ninf (f : spec_float) :
  valid_binary f = true -> SFnotnan f -> SFkey f <= - pw emax -> f = S754_infinity true.
Proof.
  intros V N H. pose proof pw_emax_pos.
  destruct (SFclass f N) as [-> | [-> | F]]; [reflexivity | | ].
  - cbn [SFkey cond_Zopp] in H. lia.
  - pose proof (fin_key_range f V F). lia.
Qed.

Lemma self_rounded (f : spec_float) :
  valid_binary f = true -> SFfin f -> rounded (SFkey f) (SFkey f).
Proof.
  intros V F. destruct f as [s | s | | s m e]; try easy.
  - left. split; reflexivity.
  - pose proof (finite_key_bounds _ _ _ V) as ((B1 & B2) & _).
    pose proof (valid_finite_inv _ _ _ V) as (He & _ & _ & Hc).
    assert (Hb : - bias <= e) by (unfold bias; lia).
    assert (R : rounded_pos (Z.pos m * pw e) (Z.pos m * pw e)).
    { exists (Z.pos (digits2_pos m) + e), (Z.pos m).
      split; [now apply finite_mag | ]. rewrite Hc.
      pose proof (pw_pos e Hb).
      split; [ | split; [lia | lia]].
      unfold rnd_spec. rewrite Z.sub_diag. cbn [Z.abs]. split; lia. }
    destruct s; cbn [SFkey cond_Zopp].
    + right. right. split; [lia | ]. now rewrite Z.opp_involutive.
    + right. left. split; [lia | exact R].
Qed.

(** ** Sum, difference and product of finite operands round the exact result *)
Lemma cond_Zopp_mul (s : bool) (a b : Z) : cond_Zopp s a * b = cond_Zopp s (a * b).
Proof. destruct s; cbn [cond_Zopp]; ring. Qed.

Lemma aligned_key (s : bool) (m : positive) (e e' : Z) :
  -1074 <= Z.min e e' ->
  cond_Zopp s (Zpos (fst (shl_align m e (Z.min e e')))) * pw (Z.min e e')
  = cond_Zopp s (Zpos m * pw e).
Proof.
  intros H. rewrite cond_Zopp_mul. f_equal.
  pose proof (shl_align_key m e (Z.min e e')) as Hk.
  replace (Z.min e (Z.min e e')) with (Z.min e e') in Hk by lia.
  apply Hk. unfold bias. lia.
Qed.

Lemma aligned_key_r (s : bool) (m : positive) (e e' : Z) :
  -1074 <= Z.min e' e ->
  cond_Zopp s (Zpos (fst (shl_align m e (Z.min e' e)))) * pw (Z.min e' e)
  = cond_Zopp s (Zpos m * pw e).
Proof. rewrite (Z.min_comm e' e). apply aligned_key. Qed.

Lemma SFadd_key (a b : spec_float) :
  valid_binary a = true -> valid_binary b = true -> SFfin a -> SFfin b ->
  SFnotnan (SF64add a b) /\ rounded (SFkey a + SFkey b) (SFkey (SF64add a b)).
Proof.
  intros Va Vb Fa Fb.
  destruct a as [sa | sa | | sa ma ea]; try easy;
    destruct b as [sb | sb | | sb mb eb]; try easy.
  - split; [destruct sa, sb; discriminate | ].
    left. split; [reflexivity | destruct sa, sb; reflexivity].
  - split; [discriminate | ]. apply (self_rounded _ Vb I).
  - split; [discriminate | ]. cbn [SF64add SFadd].
    replace (SFkey (S754_finite sa ma ea) + SFkey (S754_zero sb))
      with (SFkey (S754_finite sa ma ea)) by (cbn [SFkey]; lia).
    apply (self_rounded _ Va I).
  - pose proof (valid_finite_inv _ _ _ Va) as (Hea & _).
    pose proof (valid_finite_inv _ _ _ Vb) as (Heb & _).
    unfold SF64add. cbn [SFadd SFkey].
    destruct (binary_normalize_key
                (cond_Zopp sa (Zpos (fst (shl_align ma ea (Z.min ea eb)))) +
                 cond_Zopp sb (Zpos (fst (shl_align mb eb (Z.min ea eb)))))
                (Z.min ea eb) false ltac:(unfold bias; lia)) as (Hn & Hr).
    split; [exact Hn | ].
    rewrite Z.mul_add_distr_r in Hr.
    rewrite aligned_key, aligned_key_r in Hr by lia. exact Hr.
Qed.

Lemma SFsub_key (a b : spec_float) :
  valid_binary a = true -> valid_binary b = true -> SFfin a -> SFfin b ->
  SFnotnan (SF64sub a b) /\ rounded (SFkey a - SFkey b) (SFkey (SF64sub a b)).
Proof.
  intros Va Vb Fa Fb.
  destruct a as [sa | sa | | sa ma ea]; try easy;
    destruct b as [sb | sb | | sb mb eb]; try easy.
  - split; [destruct sa, sb; discriminate | ].
    left. split; [reflexivity | destruct sa, sb; reflexivity].
  - split; [discriminate | ]. cbn [SF64sub SFsub].
    replace (SFkey (S754_zero sa) - SFkey (S754_finite sb mb eb))
      with (- SFkey (S754_finite sb mb eb)) by (cbn [SFkey]; lia).
    replace (SFkey (S754_finite (negb sb) mb eb))
      with (- SFkey (S754_finite sb mb eb))
      by (destruct sb; cbn [SFkey negb cond_Zopp]; lia).
    apply rounded_opp. apply (self_rounded _ Vb I).
  - split; [discriminate | ]. cbn [SF64sub SFsub].
    replace (SFkey (S754_finite sa ma ea) - SFkey (S754_zero sb))
      with (SFkey (S754_finite sa ma ea)) by (cbn [SFkey]; lia).
    apply (self_rounded _ Va I).
  - pose proof (valid_finite_inv _ _ _ Va) as (Hea & _).
    pose proof (valid_finite_inv _ _ _ Vb) as (Heb & _).
    unfold SF64sub. cbn [SFsub SFkey].
    destruct (binary_normalize_key
                (cond_Zopp sa (Zpos (fst (shl_align ma ea (Z.min ea eb)))) -
                 cond_Zopp sb (Zpos (fst (shl_align mb eb (Z.min ea eb)))))
                (Z.min ea eb) false ltac:(unfold bias; lia)) as (Hn & Hr).
    split; [exact Hn | ].
    rewrite Z.mul_sub_distr_r in Hr.
    rewrite aligned_key, aligned_key_r in Hr by lia. exact Hr.
Qed.

Lemma digits2_mul (a b : positive) :
  Zpos (digits2_pos a) + Zpos (digits2_pos b) - 1 <= Zpos (digits2_pos (a * b)).
Proof.
  pose proof (digits2_bounds a) as (La & _).
  pose proof (digits2_bounds b) as (Lb & _).
  pose proof (digits2_bounds (a * b)) as (_ & Uab).
  rewrite Pos2Z.inj_mul in Uab.
  assert (H : 2 ^ (Z.pos (digits2_pos a) - 1 + (Z.pos (digits2_pos b) - 1))
              < 2 ^ Z.pos (digits2_pos (a * b))).
  { rewrite Z.pow_add_r by lia.
    assert (0 < 2 ^ (Z.pos (digits2_pos a) - 1)) by (apply Z.pow_pos_nonneg; lia).
    assert (0 < 2 ^ (Z.pos (digits2_pos b) - 1)) by (apply Z.pow_pos_nonneg; lia).
    nia. }
  apply Z.pow_lt_mono_r_iff in H; lia.
Qed.

Lemma pw_mul (a b : Z) :
  - bias <= a -> - bias <= b -> - bias <= a + b ->
  pw a * pw b = pw (a + b) * 2 ^ bias.
Proof.
  intros Ha Hb Hab. unfold pw. rewrite <- !Z.pow_add_r by (unfold bias in *; lia).
  f_equal. lia.
Qed.

Lemma SFmul_key (a b : spec_float) :
  valid_binary a = true -> valid_binary b = true -> SFfin a -> SFfin b ->
  SFnotnan (SF64mul a b) /\
  exists X, X * 2 ^ bias = SFkey a * SFkey b /\ rounded X (SFkey (SF64mul a b)).
Proof.
  intros Va Vb Fa Fb.
  destruct a as [sa | sa | | sa ma ea]; try easy;
    destruct b as [sb | sb | | sb mb eb]; try easy;
    try (split; [discriminate | ]; exists 0; cbn [SF64mul SFmul SFkey];
         split; [lia | left; split; reflexivity]).
  pose proof (valid_finite_inv _ _ _ Va) as (Hea & Hda & Hna & _).
  pose proof (valid_finite_inv _ _ _ Vb) as (Heb & Hdb & Hnb & _).
  pose proof (digits2_mul ma mb) as Hd.
  assert (Hpa : 0 < Zpos (digits2_pos ma)) by lia.
  assert (Hpb : 0 < Zpos (digits2_pos mb)) by lia.
  unfold SF64mul. cbn [SFmul].
  destruct (binary_round_aux_key (xorb sa sb) (ma * mb) (ea + eb))
    as (Hn & k & Hr & Hk).
  { unfold bias. lia. }
  { rewrite fx_eq. lia. }
  split; [exact Hn | ].
  pose proof (rounded_pos_nonneg _ _ Hr) as Hk0.
  assert (Hpp : pw ea * pw eb = pw (ea + eb) * 2 ^ bias)
    by (apply pw_mul; unfold bias; lia).
  assert (Hpos : 0 < Z.pos (ma * mb) * pw (ea + eb)).
  { assert (0 < pw (ea + eb)) by (apply pw_pos; unfold bias; lia). lia. }
  exists (cond_Zopp (xorb sa sb) (Z.pos (ma * mb) * pw (ea + eb))). split.
  - cbn [SFkey]. rewrite Pos2Z.inj_mul.
    transitivity (cond_Zopp (xorb sa sb) (Z.pos ma * Z.pos mb * (pw ea * pw eb))).
    + rewrite Hpp. destruct sa, sb; cbn [xorb cond_Zopp]; ring.
    + destruct sa, sb; cbn [xorb cond_Zopp]; ring.
  - rewrite Hk. destruct (xorb sa sb); cbn [cond_Zopp].
    + right. right. split; [lia | ]. now rewrite !Z.opp_involutive.
    + right. left. split; [lia | exact Hr].
Qed.

(** ** The operations are monotone on keys, infinities included *)
Lemma SFadd_inf (a b : spec_float) (s : bool) :
  SFnotnan a -> SFnotnan b -> SFnotnan (SF64add a b) ->
  a = S754_infinity s \/ b = S754_infinity s ->
  SF64add a b = S754_infinity s.
Proof.
  intros Na Nb N [-> | ->].
  - destruct b as [sb | sb | | sb mb eb]; try reflexivity; [ | now elim Nb].
    destruct s, sb; try reflexivity; now elim N.
  - destruct a as [sa | sa | | sa ma ea]; try reflexivity; [ | now elim Na].
    destruct s, sa; try reflexivity; now elim N.
Qed.

Lemma SFsub_inf (a b : spec_float) (s : bool) :
  SFnotnan a -> SFnotnan b -> SFnotnan (SF64sub a b) ->
  a = S754_infinity s \/ b = S754_infinity (negb s) ->
  SF64sub a b = S754_infinity s.
Proof.
  intros Na Nb N [-> | ->].
  - destruct b as [sb | sb | | sb mb eb]; try reflexivity; [ | now elim Nb].
    destruct s, sb; try reflexivity; now elim N.
  - destruct a as [sa | sa | | sa ma ea]; cbn [SF64sub SFsub];
      rewrite ?negb_involutive; try reflexivity; [ | now elim Na].
    destruct s, sa; try reflexivity; now elim N.
Qed.

Section KeyMonotone.

Variables x1 x2 y1 y2 : spec_float.
Hypothesis Vx1 : valid_binary x1 = true.
Hypothesis Vx2 : valid_binary x2 = true.
Hypothesis Vy1 : valid_binary y1 = true.
Hypothesis Vy2 : valid_binary y2 = true.
Hypothesis Nx1 : SFnotnan x1.
Hypothesis Nx2 : SFnotnan x2.
Hypothesis Ny1 : SFnotnan y1.
Hypothesis Ny2 : SFnotnan y2.

Lemma SFadd_mono :
  valid_binary (SF64add x1 y1) = true -> valid_binary (SF64add x2 y2) = true ->
  SFnotnan (SF64add x1 y1) -> SFnotnan (SF64add x2 y2) ->
  SFkey x1 <= SFkey x2 -> SFkey y1 <= SFkey y2 ->
  SFkey (SF64add x1 y1) <= SFkey (SF64add x2 y2).
Proof.
  intros V1 V2 N1 N2 Hx Hy. pose proof pw_emax_pos as HP.
  destruct (SFclass x2 Nx2) as [Ex2 | [Ex2 | Fx2]];
    [ | rewrite (SFadd_inf x2 y2 false) by auto; apply (key_range _ V1) | ].
  { rewrite Ex2 in Hx. apply key_ninf in Hx; [ | assumption | assumption].
    rewrite (SFadd_inf x1 y1 true) by auto. apply (key_range _ V2). }
  destruct (SFclass y2 Ny2) as [Ey2 | [Ey2 | Fy2]];
    [ | rewrite (SFadd_inf x2 y2 false) by auto; apply (key_range _ V1) | ].
  { rewrite Ey2 in Hy. apply key_ninf in Hy; [ | assumption | assumption].
    rewrite (SFadd_inf x1 y1 true) by auto. apply (key_range _ V2). }
  destruct (SFclass x1 Nx1) as [Ex1 | [Ex1 | Fx1]];
    [rewrite (SFadd_inf x1 y1 true) by auto; apply (key_range _ V2) | | ].
  { pose proof (fin_key_range _ Vx2 Fx2). rewrite Ex1 in Hx.
    cbn [SFkey cond_Zopp] in Hx. lia. }
  destruct (SFclass y1 Ny1) as [Ey1 | [Ey1 | Fy1]];
    [rewrite (SFadd_inf x1 y1 true) by auto; apply (key_range _ V2) | | ].
  { pose proof (fin_key_range _ Vy2 Fy2). rewrite Ey1 in Hy.
    cbn [SFkey cond_Zopp] in Hy. lia. }
  destruct (SFadd_key x1 y1 Vx1 Vy1 Fx1 Fy1) as (_ & R1).
  destruct (SFadd_key x2 y2 Vx2 Vy2 Fx2 Fy2) as (_ & R2).
  apply (rounded_mono _ _ _ _ R1 R2). lia.
Qed.

Lemma SFsub_mono :
  valid_binary (SF64sub x1 y1) = true -> valid_binary (SF64sub x2 y2) = true ->
  SFnotnan (SF64sub x1 y1) -> SFnotnan (SF64sub x2 y2) ->
  SFkey x1 <= SFkey x2 -> SFkey y2 <= SFkey y1 ->
  SFkey (SF64sub x1 y1) <= SFkey (SF64sub x2 y2).
Proof.
  intros V1 V2 N1 N2 Hx Hy. pose proof pw_emax_pos as HP.
  destruct (SFclass x2 Nx2) as [Ex2 | [Ex2 | Fx2]];
    [ | rewrite (SFsub_inf x2 y2 false) by auto; apply (key_range _ V1) | ].
  { rewrite Ex2 in Hx. apply key_ninf in Hx; [ | assumption | assumption].
    rewrite (SFsub_inf x1 y1 true) by auto. apply (key_range _ V2). }
  destruct (SFclass y2 Ny2) as [Ey2 | [Ey2 | Fy2]];
    [rewrite (SFsub_inf x2 y2 false) by auto; apply (key_range _ V1) | | ].
  { rewrite Ey2 in Hy. apply key_pinf in Hy; [ | assumption | assumption].
    rewrite (SFsub_inf x1 y1 true) by auto. apply (key_range _ V2). }
  destruct (SFclass x1 Nx1) as [Ex1 | [Ex1 | Fx1]];
    [rewrite (SFsub_inf x1 y1 true) by auto; apply (key_range _ V2) | | ].
  { pose proof (fin_key_range _ Vx2 Fx2). rewrite Ex1 in Hx.
    cbn [SFkey cond_Zopp] in Hx. lia. }
  destruct (SFclass y1 Ny1) as [Ey1 | [Ey1 | Fy1]];
    [ | rewrite (SFsub_inf x1 y1 true) by auto; apply (key_range _ V2) | ].
  { pose proof (fin_key_range _ Vy2 Fy2). rewrite Ey1 in Hy.
    cbn [SFkey cond_Zopp] in Hy. lia. }
  destruct (SFsub_key x1 y1 Vx1 Vy1 Fx1 Fy1) as (_ & R1).
  destruct (SFsub_key x2 y2 Vx2 Vy2 Fx2 Fy2) as (_ & R2).
  apply (rounded_mono _ _ _ _ R1 R2). lia.
Qed.

End KeyMonotone.

Lemma SFmul_mono (x1 x2 r : spec_float) :
  valid_binary x1 = true -> valid_binary x2 = true -> valid_binary r = true ->
  SFnotnan x1 -> SFnotnan x2 -> SFfin r -> 0 < SFkey r ->
  valid_binary (SF64mul x1 r) = true -> valid_binary (SF64mul x2 r) = true ->
  SFkey x1 <= SFkey x2 ->
  SFnotnan (SF64mul x1 r) /\ SFnotnan (SF64mul x2 r) /\
  SFkey (SF64mul x1 r) <= SFkey (SF64mul x2 r).
Proof.
  intros Vx1 Vx2 Vr Nx1 Nx2 Fr Hr V1 V2 Hx. pose proof pw_emax_pos as HP.
  assert (Hinf : forall s, SF64mul (S754_infinity s) r = S754_infinity s).
  { intros s. destruct r as [sr | sr | | [ | ] mr er]; try easy.
    - pose proof (finite_key_bounds _ _ _ Vr) as ((B & _) & _).
      cbn [SFkey cond_Zopp] in Hr. lia.
    - destruct s; reflexivity. }
  assert (Hnn : forall x, valid_binary x = true -> SFnotnan x -> SFnotnan (SF64mul x r)).
  { intros x Vx Nx. destruct (SFclass x Nx) as [-> | [-> | Fx]].
    - rewrite Hinf. discriminate.
    - rewrite Hinf. discriminate.
    - apply (SFmul_key x r Vx Vr Fx Fr). }
  split; [now apply Hnn | split; [now apply Hnn | ]].
  destruct (SFclass x2 Nx2) as [Ex2 | [Ex2 | Fx2]];
    [ | rewrite Ex2, Hinf; apply (key_range _ V1) | ].
  { rewrite Ex2 in Hx. apply key_ninf in Hx; [ | assumption | assumption].
    rewrite Hx, Hinf. apply (key_range _ V2). }
  destruct (SFclass x1 Nx1) as [Ex1 | [Ex1 | Fx1]];
    [rewrite Ex1, Hinf; apply (key_range _ V2) | | ].
  { pose proof (fin_key_range _ Vx2 Fx2). rewrite Ex1 in Hx.
    cbn [SFkey cond_Zopp] in Hx. lia. }
  destruct (SFmul_key x1 r Vx1 Vr Fx1 Fr) as (_ & X1 & E1 & R1).
  destruct (SFmul_key x2 r Vx2 Vr Fx2 Fr) as (_ & X2 & E2 & R2).
  apply (rounded_mono _ _ _ _ R1 R2).
  assert (Hb : 0 < 2 ^ bias) by (apply Z.pow_pos_nonneg; unfold bias; lia).
  nia.
Qed.

Lemma SFadd_fin_notnan (a b : spec_float) :
  valid_binary a = true -> valid_binary b = true ->
  SFfin a -> SFnotnan b -> SFnotnan (SF64add a b) /\ SFnotnan (SF64add b a).
Proof.
  intros Va Vb Fa Nb. destruct (SFclass b Nb) as [-> | [-> | Fb]].
  - destruct a; try easy; split; discriminate.
  - destruct a; try easy; split; discriminate.
  - split; [apply (SFadd_key a b) | apply (SFadd_key b a)]; assumption.
Qed.

Lemma SFsub_fin_notnan (a b : spec_float) :
  valid_binary a = true -> valid_binary b = true ->
  SFnotnan a -> SFfin b -> SFnotnan (SF64sub a b).
Proof.
  intros Va Vb Na Fb. destruct (SFclass a Na) as [-> | [-> | Fa]].
  - destruct b; try easy; discriminate.
  - destruct b; try easy; discriminate.
  - now apply (SFsub_key a b).
Qed.

(** ** Primitive floats *)
Local Open Scope float_scope.

Definition key (x : float) : Z := SFkey (Prim2SF x).
Definition notnan (x : float) : Prop := SFnotnan (Prim2SF x).
Definition finite (x : float) : Prop := SFfin (Prim2SF x).

Lemma leb_iff (x y : float) :
  (x <=? y) = true <-> notnan x /\ notnan y /\ (key x <= key y)%Z.
Proof.
  rewrite leb_spec. unfold notnan, key. split.
  - intros H. destruct (SFleb_notnan _ _ H) as (Nx & Ny).
    rewrite SFleb_key in H by (try apply Prim2SF_valid; assumption).
    apply Z.leb_le in H. auto.
  - intros (Nx & Ny & H).
    rewrite SFleb_key by (try apply Prim2SF_valid; assumption).
    now apply Z.leb_le.
Qed.

Lemma ltb_iff (x y : float) :
  (x <? y) = true <-> notnan x /\ notnan y /\ (key x < key y)%Z.
Proof.
  rewrite ltb_spec. unfold notnan, key. split.
  - intros H. destruct (SFltb_notnan _ _ H) as (Nx & Ny).
    rewrite SFltb_key in H by (try apply Prim2SF_valid; assumption).
    apply Z.ltb_lt in H. auto.
  - intros (Nx & Ny & H).
    rewrite SFltb_key by (try apply Prim2SF_valid; assumption).
    now apply Z.ltb_lt.
Qed.

Lemma leb_refl (x : float) : notnan x -> (x <=? x) = true.
Proof. intros H. apply leb_iff. repeat split; try assumption. lia. Qed.

Lemma leb_trans (x y z : float) :
  (x <=? y) = true -> (y <=? z) = true -> (x <=? z) = true.
Proof.
  rewrite !leb_iff. intros (Nx & Ny & H1) (_ & Nz & H2).
  repeat split; try assumption. lia.
Qed.

Lemma leb_false_lt (x y : float) :
  notnan x -> notnan y -> (x <=? y) = false -> (y <? x) = true.
Proof.
  intros Nx Ny H. apply ltb_iff. repeat split; try assumption.
  destruct (Z.lt_ge_cases (key y) (key x)) as [L | G]; [exact L | ].
  assert (T : (x <=? y) = true) by (apply leb_iff; repeat split; assumption || lia).
  congruence.
Qed.

Lemma finite_bounds (x : float) :
  (neg_infinity <? x) = true -> (x <? infinity) = true -> finite x.
Proof.
  rewrite !ltb_iff. intros (_ & Nx & H1) (_ & _ & H2).
  unfold finite, notnan, key in *.
  change (Prim2SF neg_infinity) with (S754_infinity true) in H1.
  change (Prim2SF infinity) with (S754_infinity false) in H2.
  destruct (SFclass _ Nx) as [E | [E | F]]; [ | | exact F];
    rewrite E in *; cbn [SFkey cond_Zopp] in *; lia.
Qed.

Lemma finite_notnan (x : float) : finite x -> notnan x.
Proof. unfold finite, notnan. destruct (Prim2SF x); easy. Qed.

(** Non-decreasing functions on floats. *)
Definition monotone (f : float -> float) : Prop :=
  forall a b, (a <=? b) = true -> (f a <=? f b) = true.

Lemma monotone_const (c : float) : notnan c -> monotone (fun _ => c).
Proof. intros H a b _. now apply leb_refl. Qed.

Lemma monotone_comp (f g : float -> float) :
  monotone f -> monotone g -> monotone (fun t => g (f t)).
Proof. intros Hf Hg a b H. apply Hg. now apply Hf. Qed.

Lemma monotone_if (k : float) (f g : float -> float) :
  notnan k -> monotone f -> monotone g -> (f k <=? g k) = true ->
  monotone (fun t => if t <=? k then f t else g t).
Proof.
  intros Nk Hf Hg Hk a b Hab.
  pose proof (proj1 (leb_iff _ _) Hab) as (Na & Nb & Kab).
  destruct (a <=? k) eqn:Ea; destruct (b <=? k) eqn:Eb.
  - now apply Hf.
  - apply leb_trans with (f k); [now apply Hf | ].
    apply leb_trans with (g k); [exact Hk | ].
    apply Hg. apply ltb_leb. now apply leb_false_lt.
  - apply leb_false_lt in Ea; [ | assumption | assumption].
    apply ltb_iff in Ea. apply leb_iff in Eb. lia.
  - now apply Hg.
Qed.

Lemma positive_finite (r : float) :
  (0 <? r) = true -> (r <? infinity) = true -> finite r /\ (0 < key r)%Z.
Proof.
  intros H0 Hi. pose proof (proj1 (ltb_iff _ _) H0) as (_ & Nr & Hk).
  change (key 0) with 0%Z in Hk. split; [ | exact Hk].
  apply finite_bounds; [ | exact Hi].
  apply ltb_iff. repeat split; [discriminate | exact Nr | ].
  change (key neg_infinity) with (- pw emax)%Z.
  pose proof pw_emax_pos. lia.
Qed.

Lemma positive_finite_form (r : float) :
  (0 <? r) = true -> (r <? infinity) = true ->
  exists m e, Prim2SF r = S754_finite false m e.
Proof.
  intros H0 Hi. destruct (positive_finite r H0 Hi) as (Fr & Kr).
  unfold finite, key in *. pose proof (Prim2SF_valid r) as V.
  destruct (Prim2SF r) as [s | s | | [ | ] m e]; try easy.
  - pose proof (finite_key_bounds _ _ _ V) as ((B & _) & _).
    cbn [SFkey cond_Zopp] in Kr. lia.
  - now exists m, e.
Qed.

Lemma monotone_sub_const (k : float) : finite k -> monotone (fun t => t - k).
Proof.
  intros Fk a b Hab. apply leb_iff in Hab. destruct Hab as (Na & Nb & Kab).
  pose proof (finite_notnan k Fk) as Nk.
  unfold notnan, key, finite in *.
  assert (N1 : SFnotnan (Prim2SF (a - k))).
  { rewrite sub_spec. apply SFsub_fin_notnan; try apply Prim2SF_valid; assumption. }
  assert (N2 : SFnotnan (Prim2SF (b - k))).
  { rewrite sub_spec. apply SFsub_fin_notnan; try apply Prim2SF_valid; assumption. }
  apply leb_iff. split; [exact N1 | split; [exact N2 | ]].
  unfold key. pose proof (Prim2SF_valid (a - k)) as V1.
  pose proof (Prim2SF_valid (b - k)) as V2.
  rewrite !sub_spec in *.
  apply SFsub_mono; try apply Prim2SF_valid; try assumption. lia.
Qed.

Lemma monotone_add_const (c : float) : finite c -> monotone (fun t => c + t).
Proof.
  intros Fc a b Hab. apply leb_iff in Hab. destruct Hab as (Na & Nb & Kab).
  pose proof (finite_notnan c Fc) as Nc.
  unfold notnan, key, finite in *.
  assert (N1 : SFnotnan (Prim2SF (c + a))).
  { rewrite add_spec.
    apply (proj1 (SFadd_fin_notnan _ _ (Prim2SF_valid c) (Prim2SF_valid a) Fc Na)). }
  assert (N2 : SFnotnan (Prim2SF (c + b))).
  { rewrite add_spec.
    apply (proj1 (SFadd_fin_notnan _ _ (Prim2SF_valid c) (Prim2SF_valid b) Fc Nb)). }
  apply leb_iff. split; [exact N1 | split; [exact N2 | ]].
  unfold key. pose proof (Prim2SF_valid (c + a)) as V1.
  pose proof (Prim2SF_valid (c + b)) as V2.
  rewrite !add_spec in *.
  apply SFadd_mono; try apply Prim2SF_valid; try assumption. lia.
Qed.

Lemma monotone_mul_const (r : float) :
  (0 <? r) = true -> (r <? infinity) = true -> monotone (fun t => t * r).
Proof.
  intros H0 Hi a b Hab. destruct (positive_finite r H0 Hi) as (Fr & Kr).
  apply leb_iff in Hab. destruct Hab as (Na & Nb & Kab).
  unfold notnan, key, finite in *.
  pose proof (Prim2SF_valid (a * r)) as V1.
  pose proof (Prim2SF_valid (b * r)) as V2.
  apply leb_iff. unfold notnan, key. rewrite !mul_spec in *.
  apply SFmul_mono; try apply Prim2SF_valid; assumption.
Qed.

(** The shape of cess and total: [b + b * r]. *)
Lemma monotone_add_scaled (r : float) :
  (0 <? r) = true -> (r <? infinity) = true -> monotone (fun b => b + b * r).
Proof.
  intros H0 Hi a b Hab. destruct (positive_finite r H0 Hi) as (Fr & Kr).
  pose proof (monotone_mul_const r H0 Hi a b Hab) as Hm.
  apply leb_iff in Hab. destruct Hab as (Na & Nb & Kab).
  apply leb_iff in Hm. destruct Hm as (Nma & Nmb & Kmab).
  assert (Hnn : forall x, notnan x -> notnan (x * r) -> notnan (x + x * r)).
  { intros x Nx Nxr. unfold notnan in *.
    rewrite add_spec. pose proof (Prim2SF_valid (x * r)) as Vxr.
    destruct (SFclass _ Nx) as [E | [E | F]].
    - rewrite mul_spec in *. destruct (positive_finite_form r H0 Hi) as (mr & er & Er).
      rewrite E, Er. discriminate.
    - rewrite mul_spec in *. destruct (positive_finite_form r H0 Hi) as (mr & er & Er).
      rewrite E, Er. discriminate.
    - apply (proj1 (SFadd_fin_notnan _ _ (Prim2SF_valid x) Vxr F Nxr)). }
  pose proof (Hnn a Na Nma) as N1. pose proof (Hnn b Nb Nmb) as N2.
  apply leb_iff. split; [exact N1 | split; [exact N2 | ]].
  unfold notnan, key in *.
  pose proof (Prim2SF_valid (a + a * r)) as V1.
  pose proof (Prim2SF_valid (b + b * r)) as V2.
  rewrite !add_spec in *.
  apply SFadd_mono; try apply Prim2SF_valid; assumption.
Qed.

(** [max(0, g - d)] is non-decreasing in [g], whatever [d] is, *)
Lemma SFsub_notnan_inv (a d : spec_float) :
  SFnotnan (SF64sub a d) -> SFnotnan a /\ SFnotnan d.
Proof.
  destruct a as [ | | | ]; destruct d as [ | | | ]; intros H; split;
    try discriminate; now elim H.
Qed.

Lemma SFsub_pos_mono (a b d : spec_float) :
  valid_binary a = true -> valid_binary b = true -> valid_binary d = true ->
  valid_binary (SF64sub a d) = true -> valid_binary (SF64sub b d) = true ->
  SFnotnan b -> (SFkey a <= SFkey b)%Z ->
  SFnotnan (SF64sub a d) -> (0 < SFkey (SF64sub a d))%Z ->
  SFnotnan (SF64sub b d) /\ (SFkey (SF64sub a d) <= SFkey (SF64sub b d))%Z.
Proof.
  intros Va Vb Vd V1 V2 Nb Hab N1 Hpos. pose proof pw_emax_pos as HP.
  destruct (SFsub_notnan_inv _ _ N1) as (Na & Nd).
  destruct (SFclass d Nd) as [Ed | [Ed | Fd]].
  - subst d.
    assert (Ha : SF64sub a (S754_infinity true) = S754_infinity false).
    { destruct a as [ | [ | ] | | ]; try reflexivity; now elim N1. }
    assert (Hb : SF64sub b (S754_infinity true) = S754_infinity false).
    { destruct b as [ | [ | ] | | ]; try reflexivity; [ | now elim Nb].
      exfalso. cbn [SFkey cond_Zopp] in Hab.
      apply key_ninf in Hab; [ | assumption | assumption].
      subst a. now elim N1. }
    rewrite Ha, Hb. split; [discriminate | lia].
  - subst d. exfalso.
    assert (Ha : SF64sub a (S754_infinity false) = S754_infinity true).
    { destruct a as [ | [ | ] | | ]; try reflexivity; now elim N1. }
    rewrite Ha in Hpos. cbn [SFkey cond_Zopp] in Hpos. lia.
  - assert (N2 : SFnotnan (SF64sub b d)) by now apply SFsub_fin_notnan.
    split; [exact N2 | ].
    apply SFsub_mono; try assumption. lia.
Qed.

Lemma monotone_max_sub (d : float) : monotone (fun g => Py.max 0 (g - d)).
Proof.
  intros a b Hab. unfold Py.max.
  destruct (0 <? a - d) eqn:Ea.
  - apply ltb_iff in Ea. destruct Ea as (_ & N1 & K1).
    apply leb_iff in Hab. destruct Hab as (Na & Nb & Kab).
    change (key 0) with 0%Z in K1.
    unfold notnan, key in *.
    pose proof (Prim2SF_valid (a - d)) as V1.
    pose proof (Prim2SF_valid (b - d)) as V2.
    assert (H : SFnotnan (Prim2SF (b - d)) /\
                (SFkey (Prim2SF (a - d)) <= SFkey (Prim2SF (b - d)))%Z).
    { rewrite !sub_spec in *.
      apply SFsub_pos_mono; try apply Prim2SF_valid; assumption. }
    destruct H as (N2 & K2).
    assert (Eb : (0 <? b - d) = true).
    { apply ltb_iff. unfold notnan, key. repeat split; try assumption.
      - discriminate.
      - change (SFkey (Prim2SF 0)) with 0%Z. lia. }
    rewrite Eb. apply leb_iff. unfold notnan, key. auto.
  - destruct (0 <? b - d) eqn:Eb; [now apply ltb_leb | reflexivity].
Qed.

(** and non-increasing in [d]. *)
Lemma SFsub_pos_anti (g d1 d2 : spec_float) :
  valid_binary g = true -> valid_binary d1 = true -> valid_binary d2 = true ->
  valid_binary (SF64sub g d1) = true -> valid_binary (SF64sub g d2) = true ->
  SFnotnan d1 -> (SFkey d1 <= SFkey d2)%Z ->
  SFnotnan (SF64sub g d2) -> (0 < SFkey (SF64sub g d2))%Z ->
  SFnotnan (SF64sub g d1) /\ (SFkey (SF64sub g d2) <= SFkey (SF64sub g d1))%Z.
Proof.
  intros Vg V1 V2 Vs1 Vs2 N1 Hd Ns2 Hpos. pose proof pw_emax_pos as HP.
  destruct (SFsub_notnan_inv _ _ Ns2) as (Ng & N2).
  destruct (SFclass d1 N1) as [E1 | [E1 | F1]].
  - subst d1.
    assert (Hg : SF64sub g (S754_infinity true) = S754_infinity false).
    { destruct g as [ | [ | ] | | ]; try reflexivity; [ | now elim Ng].
      exfalso. destruct d2 as [ | [ | ] | | ]; cbn in Hpos; try lia; now elim Ns2. }
    rewrite Hg. split; [discriminate | ]. apply (key_range _ Vs2).
  - subst d1. exfalso. cbn [SFkey cond_Zopp] in Hd.
    apply key_pinf in Hd; [ | assumption | assumption]. subst d2.
    destruct g as [ | [ | ] | | ]; cbn in Hpos; try lia; now elim Ns2.
  - assert (Ns1 : SFnotnan (SF64sub g d1)) by now apply SFsub_fin_notnan.
    split; [exact Ns1 | ].
    apply SFsub_mono; try assumption. lia.
Qed.

Lemma antitone_max_sub (g d1 d2 : float) :
  (d1 <=? d2) = true -> (Py.max 0 (g - d2) <=? Py.max 0 (g - d1)) = true.
Proof.
  intros Hd. unfold Py.max.
  destruct (0 <? g - d2) eqn:E2.
  - apply ltb_iff in E2. destruct E2 as (_ & N2 & K2).
    apply leb_iff in Hd. destruct Hd as (Nd1 & Nd2 & Kd).
    change (key 0) with 0%Z in K2.
    unfold notnan, key in *.
    pose proof (Prim2SF_valid (g - d1)) as V1.
    pose proof (Prim2SF_valid (g - d2)) as V2.
    assert (H : SFnotnan (Prim2SF (g - d1)) /\
                (SFkey (Prim2SF (g - d2)) <= SFkey (Prim2SF (g - d1)))%Z).
    { rewrite !sub_spec in *.
      apply SFsub_pos_anti; try apply Prim2SF_valid; assumption. }
    destruct H as (N1 & K1).
    assert (E1 : (0 <? g - d1) = true).
    { apply ltb_iff. unfold notnan, key. repeat split; try assumption.
      - discriminate.
      - change (SFkey (Prim2SF 0)) with 0%Z. lia. }
    rewrite E1. apply leb_iff. unfold notnan, key. auto.
  - destruct (0 <? g - d1) eqn:E1; [now apply ltb_leb | reflexivity].
Qed.

(** Sums of non-negative floats, caps, and a few identities. *)
Lemma add_nonneg (x y : float) :
  (0 <=? x) = true -> (0 <=? y) = true -> (0 <=? x + y) = true.
Proof.
  intros Hx Hy.
  pose proof (proj1 (leb_iff _ _) Hx) as (_ & Nx & Kx).
  pose proof (proj1 (leb_iff _ _) Hy) as (_ & Ny & Ky).
  change (key 0)%Z with 0%Z in *.
  assert (N : notnan (x + y)).
  { unfold notnan, key in *. rewrite add_spec. pose proof pw_emax_pos.
    destruct (SFclass _ Nx) as [E | [E | F]].
    - rewrite E in Kx. cbn [SFkey cond_Zopp] in Kx. lia.
    - rewrite E. destruct (SFclass _ Ny) as [E' | [E' | F']].
      + rewrite E' in Ky. cbn [SFkey cond_Zopp] in Ky. lia.
      + rewrite E'. discriminate.
      + destruct (Prim2SF y); try easy; discriminate.
    - apply (proj1 (SFadd_fin_notnan _ _ (Prim2SF_valid x) (Prim2SF_valid y) F Ny)). }
  apply leb_iff. split; [discriminate | split; [exact N | ]].
  change (key 0) with (key (0 + 0)). unfold notnan, key in *.
  pose proof (Prim2SF_valid (x + y)) as V2.
  pose proof (Prim2SF_valid (0 + 0)) as V1.
  rewrite !add_spec in *.
  apply SFadd_mono; try apply Prim2SF_valid; try assumption; discriminate.
Qed.

Lemma add_monotone (x1 x2 y1 y2 : float) :
  (x1 <=? x2) = true -> (y1 <=? y2) = true ->
  notnan (x1 + y1) -> notnan (x2 + y2) ->
  (x1 + y1 <=? x2 + y2) = true.
Proof.
  intros Hx Hy N1 N2.
  apply leb_iff in Hx. destruct Hx as (Nx1 & Nx2 & Kx).
  apply leb_iff in Hy. destruct Hy as (Ny1 & Ny2 & Ky).
  apply leb_iff. split; [exact N1 | split; [exact N2 | ]].
  unfold notnan, key in *.
  pose proof (Prim2SF_valid (x1 + y1)) as V1.
  pose proof (Prim2SF_valid (x2 + y2)) as V2.
  rewrite !add_spec in *.
  apply SFadd_mono; try apply Prim2SF_valid; assumption.
Qed.

Lemma monotone_min (k : float) : notnan k -> monotone (fun c => Py.min c k).
Proof.
  intros Nk a b Hab. unfold Py.min.
  pose proof (proj1 (leb_iff _ _) Hab) as (Na & Nb & Kab).
  destruct (k <? a) eqn:Ea; destruct (k <? b) eqn:Eb.
  - now apply leb_refl.
  - apply ltb_iff in Ea. destruct Ea as (_ & _ & Ka).
    assert (T : (k <? b) = true) by (apply ltb_iff; repeat split; assumption || lia).
    congruence.
  - apply leb_iff. repeat split; try assumption.
    destruct (Z.le_gt_cases (key a) (key k)) as [L | G]; [exact L | ].
    assert (T : (k <? a) = true) by (apply ltb_iff; repeat split; assumption || lia).
    congruence.
  - exact Hab.
Qed.

Lemma ltb_not_leb (a b : float) : (a <? b) = true -> (b <=? a) = false.
Proof.
  intros H. apply ltb_iff in H. destruct H as (Na & Nb & K).
  destruct (b <=? a) eqn:E; [ | reflexivity].
  apply leb_iff in E. lia.
Qed.

Lemma sub_le_self (g d : float) :
  (0 <=? d) = true -> notnan (g - d) -> (g - d <=? g) = true.
Proof.
  intros Hd N. apply leb_iff in Hd. destruct Hd as (_ & Nd & Kd).
  change (key 0) with 0%Z in Kd.
  unfold notnan, key in *.
  pose proof (Prim2SF_valid (g - d)) as V1.
  pose proof (Prim2SF_valid (g - 0)) as V2.
  rewrite sub_spec in N, V1. rewrite sub_spec in V2.
  destruct (SFsub_notnan_inv _ _ N) as (Ng & _).
  assert (K0 : SFkey (SF64sub (Prim2SF g) (Prim2SF 0)) = SFkey (Prim2SF g)).
  { change (Prim2SF 0) with (S754_zero false).
    destruct (Prim2SF g) as [[ | ] | | | ]; reflexivity. }
  assert (N0 : SFnotnan (SF64sub (Prim2SF g) (Prim2SF 0))).
  { apply SFsub_fin_notnan; try apply Prim2SF_valid; [exact Ng | exact I]. }
  apply leb_iff. unfold notnan, key. rewrite sub_spec.
  split; [exact N | split; [exact Ng | ]].
  rewrite <- K0.
  apply SFsub_mono; try apply Prim2SF_valid; try assumption;
    try discriminate; lia.
Qed.

Lemma SFcompare_eq_finite (s : bool) (m : positive) (e : Z) (f : spec_float) :
  SFcompare (S754_finite s m e) f = Some Eq -> f = S754_finite s m e.
Proof.
  destruct f as [s' | s' | | s' m' e']; cbn [SFcompare].
  - destruct s; discriminate.
  - destruct s'; discriminate.
  - discriminate.
  - destruct s, s'; try discriminate;
      destruct (Z.compare_spec e e') as [E | L | G]; try discriminate;
      intros H; injection H as H; subst e';
      [apply (f_equal CompOpp) in H; cbn [CompOpp] in H;
       rewrite CompOpp_involutive in H | ];
      apply (Pos.compare_eq m m') in H; now subst m'.
Qed.

Lemma min_cap (c k : float) :
  finite k -> (0 <? k) = true -> (k <=? c) = true -> Py.min c k = k.
Proof.
  intros Fk Hk Hc. unfold Py.min. destruct (k <? c) eqn:E; [reflexivity | ].
  rewrite leb_spec in Hc. rewrite ltb_spec in E, Hk.
  unfold SFleb in Hc. unfold SFltb in E, Hk. unfold finite in Fk.
  change (Prim2SF 0) with (S754_zero false) in Hk.
  apply Prim2SF_inj.
  destruct (Prim2SF k) as [sk | sk | | sk mk ek] eqn:Ek; try easy.
  apply SFcompare_eq_finite.
  destruct (SFcompare (S754_finite sk mk ek) (Prim2SF c)) as [[ | | ] | ];
    try discriminate; reflexivity.
Qed.

Lemma div_zero_pos (x : float) : (0 <? x) = true -> 0 / x = 0.
Proof.
  intros H. rewrite ltb_spec in H. unfold SFltb in H.
  apply Prim2SF_inj. rewrite div_spec.
  change (Prim2SF 0) with (S754_zero false) in *.
  destruct (Prim2SF x) as [s | [ | ] | | [ | ] m e]; try discriminate H; reflexivity.
Qed.

Lemma neg_infinity_le (x : float) : notnan x -> (neg_infinity <=? x) = true.
Proof.
  intros N. apply leb_iff. split; [discriminate | split; [exact N | ]].
  change (key neg_infinity) with (- pw emax)%Z.
  apply (key_range _ (Prim2SF_valid x)).
Qed.

Lemma add_nonneg_monotone (x1 x2 y1 y2 : float) :
  (0 <=? x1) = true -> (0 <=? y1) = true ->
  (x1 <=? x2) = true -> (y1 <=? y2) = true ->
  (0 <=? x1 + y1) = true /\ (x1 + y1 <=? x2 + y2) = true.
Proof.
  intros Hx Hy Hxx Hyy.
  pose proof (leb_trans _ _ _ Hx Hxx) as Hx2.
  pose proof (leb_trans _ _ _ Hy Hyy) as Hy2.
  pose proof (add_nonneg _ _ Hx Hy) as H1.
  pose proof (add_nonneg _ _ Hx2 Hy2) as H2.
  split; [exact H1 | ].
  apply add_monotone; try assumption.
  - now apply leb_iff in H1.
  - now apply leb_iff in H2.
Qed.

Lemma le_add_nonneg (x c : float) :
  (0 <=? x) = true -> (0 <=? c) = true -> (x <=? x + c) = true.
Proof.
  intros Hx Hc. pose proof (add_nonneg x c Hx Hc) as Hs.
  apply leb_iff in Hx. destruct Hx as (_ & Nx & Kx).
  apply leb_iff in Hc. destruct Hc as (_ & Nc & Kc).
  apply leb_iff in Hs. destruct Hs as (_ & Ns & _).
  apply leb_iff. split; [exact Nx | split; [exact Ns | ]].
  unfold notnan, key in *.
  pose proof (Prim2SF_valid (x + c)) as V2.
  pose proof (Prim2SF_valid (x + 0)) as V1.
  rewrite !add_spec in *.
  assert (K0 : SFkey (SF64add (Prim2SF x) (Prim2SF 0)) = SFkey (Prim2SF x)).
  { change (Prim2SF 0) with (S754_zero false).
    destruct (Prim2SF x) as [[ | ] | | | ]; reflexivity. }
  assert (N0 : SFnotnan (SF64add (Prim2SF x) (Prim2SF 0))).
  { change (Prim2SF 0) with (S754_zero false).
    destruct (Prim2SF x) as [[ | ] | | | ]; try discriminate. now elim Nx. }
  rewrite <- K0.
  apply SFadd_mono; try apply Prim2SF_valid; try assumption;
    try discriminate; lia.
Qed.

End Binary64.

(** ** Monotonicity of the tax computation *)

Import Binary64.

Lemma monotone_bracket (c k r : float) :
  finite c -> finite k -> (0 <? r) = true -> (r <? infinity) = true ->
  monotone (fun t => c + (t - k) * r).
Proof.
  intros Fc Fk H0 Hi.
  apply (monotone_comp (fun t => (t - k) * r) (fun p => c + p)).
  - apply (monotone_comp (fun t => t - k) (fun s => s * r)).
    + now apply monotone_sub_const.
    + now apply monotone_mul_const.
  - now apply monotone_add_const.
Qed.

Lemma monotone_first_bracket (k r : float) :
  finite k -> (0 <? r) = true -> (r <? infinity) = true ->
  monotone (fun t => (t - k) * r).
Proof.
  intros Fk H0 Hi.
  apply (monotone_comp (fun t => t - k) (fun s => s * r)).
  - now apply monotone_sub_const.
  - now apply monotone_mul_const.
Qed.

Ltac closed_float :=
  match goal with
  | |- notnan _ => unfold notnan, SFnotnan; vm_compute; discriminate
  | |- finite _ => apply finite_bounds; reflexivity
  | |- _ = true => reflexivity
  end.

Lemma calculate_tax_old_regime_monotone : monotone calculate_tax_old_regime.
Proof.
  unfold calculate_tax_old_regime.
  apply (monotone_if 250000 (fun _ => 0)); [closed_float | | | closed_float].
  { apply monotone_const. closed_float. }
  apply (monotone_if 500000 (fun t => (t - 250000) * 0.05));
    [closed_float | | | closed_float].
  { apply monotone_first_bracket; closed_float. }
  apply (monotone_if 1000000 (fun t => 12500 + (t - 500000) * 0.20));
    [closed_float | | | closed_float].
  { apply monotone_bracket; closed_float. }
  apply monotone_bracket; closed_float.
Qed.

Lemma calculate_tax_new_regime_monotone : monotone calculate_tax_new_regime.
Proof.
  unfold calculate_tax_new_regime.
  apply (monotone_if 300000 (fun _ => 0)); [closed_float | | | closed_float].
  { apply monotone_const. closed_float. }
  apply (monotone_if 700000 (fun t => (t - 300000) * 0.05));
    [closed_float | | | closed_float].
  { apply monotone_first_bracket; closed_float. }
  apply (monotone_if 1000000 (fun t => 20000 + (t - 700000) * 0.10));
    [closed_float | | | closed_float].
  { apply monotone_bracket; closed_float. }
  apply (monotone_if 1200000 (fun t => 20000 + 30000 + (t - 1000000) * 0.15));
    [closed_float | | | closed_float].
  { apply monotone_bracket; closed_float. }
  apply (monotone_if 1500000 (fun t => 20000 + 30000 + 30000 + (t - 1200000) * 0.20));
    [closed_float | | | closed_float].
  { apply monotone_bracket; closed_float. }
  apply monotone_bracket; closed_float.
Qed.

Lemma rebated_new_regime_monotone :
  monotone (fun t => if t <=? 700000 then 0 else calculate_tax_new_regime t).
Proof.
  apply (monotone_if 700000 (fun _ => 0) calculate_tax_new_regime);
    [closed_float | | apply calculate_tax_new_regime_monotone | closed_float].
  apply monotone_const. closed_float.
Qed.

(** The tax as a function of the taxable income, per regime. *)
Definition base_tax (old : bool) (t : float) : float :=
  if old then calculate_tax_old_regime t
  else if t <=? 700000 then 0 else calculate_tax_new_regime t.

Lemma base_tax_monotone (old : bool) : monotone (base_tax old).
Proof.
  destruct old; [apply calculate_tax_old_regime_monotone
                | apply rebated_new_regime_monotone].
Qed.

Lemma base_tax_zero (old : bool) : base_tax old 0 = 0.
Proof. now destruct old. Qed.

Lemma calculate_tax_shape (request : TaxCalculationRequest) :
  let r := calculate_tax request in
  taxable_income r = Py.max 0 (income request - total_deductions r) /\
  tax_amount r = base_tax (regime request =? "old")%string (taxable_income r).
Proof.
  unfold calculate_tax, regime_branch, base_tax.
  destruct (regime request =? "old")%string; cbn; split; reflexivity.
Qed.

Lemma tax_amount_nonneg (request : TaxCalculationRequest) :
  (0 <=? tax_amount (calculate_tax request)) = true.
Proof.
  destruct (calculate_tax_shape request) as (Ht & Ha). rewrite Ha, Ht.
  rewrite <- (base_tax_zero (regime request =? "old")%string) at 1.
  apply base_tax_monotone. apply max_zero_nonneg.
Qed.

(** ** Further properties of the [/calculate-tax] route *)

(** X1: for a fixed regime and fixed deduction inputs, a larger gross income
    never gives a smaller taxable income, base tax, cess or total tax; this
    holds for all floats [g1 <= g2], the non-negative ones among them, and
    across the rebate threshold of the new regime. *)
Theorem total_tax_monotone_in_income (g1 g2 c d h o : float) (rg : string) :
  (g1 <=? g2) = true ->
  let r1 := calculate_tax (Build_TaxCalculationRequest g1 c d h o rg) in
  let r2 := calculate_tax (Build_TaxCalculationRequest g2 c d h o rg) in
  (taxable_income r1 <=? taxable_income r2) = true /\
  (tax_amount r1 <=? tax_amount r2) = true /\
  (cess r1 <=? cess r2) = true /\
  (total_tax r1 <=? total_tax r2) = true.
Proof.
  intros Hg r1 r2.
  destruct (calculate_tax_shape (Build_TaxCalculationRequest g1 c d h o rg))
    as (Ht1 & Ha1).
  destruct (calculate_tax_shape (Build_TaxCalculationRequest g2 c d h o rg))
    as (Ht2 & Ha2).
  destruct (calculate_tax_fields (Build_TaxCalculationRequest g1 c d h o rg))
    as (_ & _ & Hc1 & Hs1 & _).
  destruct (calculate_tax_fields (Build_TaxCalculationRequest g2 c d h o rg))
    as (_ & _ & Hc2 & Hs2 & _).
  fold r1 in Ht1, Ha1, Hc1, Hs1. fold r2 in Ht2, Ha2, Hc2, Hs2.
  cbn [income regime] in *.
  assert (Hd : total_deductions r2 = total_deductions r1).
  { unfold r1, r2, calculate_tax, regime_branch. cbn [regime].
    destruct (rg =? "old")%string; reflexivity. }
  assert (T : (taxable_income r1 <=? taxable_income r2) = true).
  { rewrite Ht1, Ht2, Hd. now apply Binary64.monotone_max_sub. }
  assert (A : (tax_amount r1 <=? tax_amount r2) = true).
  { rewrite Ha1, Ha2. now apply base_tax_monotone. }
  split; [exact T | split; [exact A | split]].
  - rewrite Hc1, Hc2.
    now apply (Binary64.monotone_mul_const 0.04).
  - rewrite Hs1, Hs2, Hc1, Hc2.
    now apply (Binary64.monotone_add_scaled 0.04).
Qed.

Lemma total_tax_monotone_in_income_witness :
  let r1 := calculate_tax (Build_TaxCalculationRequest 775000 0 0 0 0 "new") in
  let r2 := calculate_tax (Build_TaxCalculationRequest 775001 0 0 0 0 "new") in
  (taxable_income r1 <=? taxable_income r2) = true /\
  (tax_amount r1 <=? tax_amount r2) = true /\
  (cess r1 <=? cess r2) = true /\
  (total_tax r1 <=? total_tax r2) = true.
Proof.
  apply (total_tax_monotone_in_income 775000 775001 0 0 0 0 "new").
  reflexivity.
Defined.

(** X2: whatever the request holds (negative amounts, infinities, NaN), the
    base tax, the cess and the total tax of the response are at least 0, and
    the total tax is at least the base tax; in particular none of them is
    NaN. *)
Theorem tax_never_negative (request : TaxCalculationRequest) :
  let r := calculate_tax request in
  (0 <=? tax_amount r) = true /\
  (0 <=? cess r) = true /\
  (0 <=? total_tax r) = true /\
  (tax_amount r <=? total_tax r) = true.
Proof.
  intros r. pose proof (tax_amount_nonneg request) as Ha. fold r in Ha.
  destruct (calculate_tax_fields request) as (_ & _ & Hc & Hs & _).
  fold r in Hc, Hs.
  assert (C : (0 <=? cess r) = true).
  { rewrite Hc. change 0 with (0 * 0.04) at 1.
    now apply (Binary64.monotone_mul_const 0.04). }
  split; [exact Ha | split; [exact C | split]].
  - rewrite Hs, Hc. change 0 with (0 + 0 * 0.04) at 1.
    now apply (Binary64.monotone_add_scaled 0.04).
  - rewrite Hs. now apply Binary64.le_add_nonneg.
Qed.

(** X3: under the new regime a taxable income above 700,000, by however
    little, costs a base tax of at least 20,000 and a total tax of at least
    20,800, where 700,000 itself costs nothing: the rebate has no marginal
    relief. *)
Theorem new_regime_no_marginal_relief (request : TaxCalculationRequest) :
  regime request <> "old"%string ->
  (700000 <? taxable_income (calculate_tax request)) = true ->
  (20000 <=? tax_amount (calculate_tax request)) = true /\
  (20800 <=? total_tax (calculate_tax request)) = true.
Proof.
  intros Hnew Ht.
  destruct (calculate_tax_fields request) as (Hb & _ & Hc & Hs & _).
  rewrite (regime_branch_new request Hnew) in Hb. cbv zeta in Hb.
  injection Hb as _ Hti Ha. rewrite Hti in Ht.
  rewrite (Binary64.ltb_not_leb _ _ Ht) in Ha.
  assert (A : (20000 <=? tax_amount (calculate_tax request)) = true).
  { rewrite Ha. change 20000 with (calculate_tax_new_regime 700000) at 1.
    apply calculate_tax_new_regime_monotone. now apply ltb_leb. }
  split; [exact A | ].
  rewrite Hs, Hc. change 20800 with (20000 + 20000 * 0.04).
  now apply (Binary64.monotone_add_scaled 0.04).
Qed.

Lemma new_regime_no_marginal_relief_witness :
  tax_amount (calculate_tax (new_request 775000)) = 0 /\
  (20000 <=? tax_amount (calculate_tax (new_request 775001))) = true /\
  (20800 <=? total_tax (calculate_tax (new_request 775001))) = true.
Proof.
  split; [reflexivity | ].
  apply (new_regime_no_marginal_relief (new_request 775001)).
  - discriminate.
  - reflexivity.
Defined.

(** X4: when the gross income and the total deduction of the response are
    non-negative, the taxable income does not exceed the gross income. *)
Theorem taxable_income_at_most_gross (request : TaxCalculationRequest) :
  (0 <=? income request) = true ->
  (0 <=? total_deductions (calculate_tax request)) = true ->
  (taxable_income (calculate_tax request) <=? income request) = true.
Proof.
  intros Hg Hd. destruct (calculate_tax_shape request) as (Ht & _).
  rewrite Ht. unfold Py.max.
  destruct (0 <? income request - total_deductions (calculate_tax request)) eqn:E.
  - apply Binary64.sub_le_self; [exact Hd | ].
    now apply Binary64.ltb_iff in E.
  - exact Hg.
Qed.

Lemma taxable_income_at_most_gross_witness :
  (taxable_income (calculate_tax example_old) <=? 1200000) = true.
Proof.
  apply (taxable_income_at_most_gross example_old); reflexivity.
Defined.

(** X5: under the old regime, raising any of the four deduction inputs from
    non-negative amounts never lowers the total deduction and never raises
    the taxable income, the base tax or the total tax. *)
Theorem old_regime_deductions_never_raise_tax
    (g c1 d1 h1 o1 c2 d2 h2 o2 : float) :
  (0 <=? c1) = true -> (0 <=? d1) = true ->
  (0 <=? h1) = true -> (0 <=? o1) = true ->
  (c1 <=? c2) = true -> (d1 <=? d2) = true ->
  (h1 <=? h2) = true -> (o1 <=? o2) = true ->
  let r1 := calculate_tax (Build_TaxCalculationRequest g c1 d1 h1 o1 "old") in
  let r2 := calculate_tax (Build_TaxCalculationRequest g c2 d2 h2 o2 "old") in
  (total_deductions r1 <=? total_deductions r2) = true /\
  (taxable_income r2 <=? taxable_income r1) = true /\
  (tax_amount r2 <=? tax_amount r1) = true /\
  (total_tax r2 <=? total_tax r1) = true.
Proof.
  intros Pc Pd Ph Po Hc Hd Hh Ho r1 r2.
  destruct (calculate_tax_shape (Build_TaxCalculationRequest g c1 d1 h1 o1 "old"))
    as (Ht1 & Ha1).
  destruct (calculate_tax_shape (Build_TaxCalculationRequest g c2 d2 h2 o2 "old"))
    as (Ht2 & Ha2).
  destruct (calculate_tax_fields (Build_TaxCalculationRequest g c1 d1 h1 o1 "old"))
    as (_ & _ & Hc1 & Hs1 & _).
  destruct (calculate_tax_fields (Build_TaxCalculationRequest g c2 d2 h2 o2 "old"))
    as (_ & _ & Hc2 & Hs2 & _).
  fold r1 in Ht1, Ha1, Hc1, Hs1. fold r2 in Ht2, Ha2, Hc2, Hs2.
  cbn [income regime] in *.
  assert (E1 : total_deductions r1 =
               Py.min c1 150000 + Py.min d1 75000 + h1 + o1) by reflexivity.
  assert (E2 : total_deductions r2 =
               Py.min c2 150000 + Py.min d2 75000 + h2 + o2) by reflexivity.
  assert (N15 : Binary64.notnan 150000) by closed_float.
  assert (N75 : Binary64.notnan 75000) by closed_float.
  pose proof (Binary64.monotone_min 150000 N15 0 c1 Pc) as Mc0.
  pose proof (Binary64.monotone_min 150000 N15 c1 c2 Hc) as Mc.
  pose proof (Binary64.monotone_min 75000 N75 0 d1 Pd) as Md0.
  pose proof (Binary64.monotone_min 75000 N75 d1 d2 Hd) as Md.
  cbv beta in Mc0, Mc, Md0, Md.
  change (Py.min 0 150000) with 0 in Mc0. change (Py.min 0 75000) with 0 in Md0.
  destruct (Binary64.add_nonneg_monotone _ _ _ _ Mc0 Md0 Mc Md) as (P1 & M1).
  destruct (Binary64.add_nonneg_monotone _ _ _ _ P1 Ph M1 Hh) as (P2 & M2).
  destruct (Binary64.add_nonneg_monotone _ _ _ _ P2 Po M2 Ho) as (P3 & M3).
  rewrite <- E1, <- E2 in M3.
  assert (T : (taxable_income r2 <=? taxable_income r1) = true).
  { rewrite Ht1, Ht2. now apply Binary64.antitone_max_sub. }
  assert (A : (tax_amount r2 <=? tax_amount r1) = true).
  { rewrite Ha1, Ha2. now apply base_tax_monotone. }
  split; [exact M3 | split; [exact T | split; [exact A | ]]].
  rewrite Hs1, Hs2, Hc1, Hc2.
  now apply (Binary64.monotone_add_scaled 0.04).
Qed.

Lemma old_regime_deductions_never_raise_tax_witness :
  let r1 := calculate_tax (Build_TaxCalculationRequest 1200000 100000 30000 0 0 "old") in
  let r2 := calculate_tax (Build_TaxCalculationRequest 1200000 200000 30000 50000 0 "old") in
  (total_deductions r1 <=? total_deductions r2) = true /\
  (taxable_income r2 <=? taxable_income r1) = true /\
  (tax_amount r2 <=? tax_amount r1) = true /\
  (total_tax r2 <=? total_tax r1) = true.
Proof.
  apply (old_regime_deductions_never_raise_tax
           1200000 100000 30000 0 0 200000 30000 50000 0); reflexivity.
Defined.

(** X6: under the old regime an 80C input of 150,000 or more gives the same
    response as 150,000, and an 80D input of 75,000 or more the same as
    75,000: nothing above the cap has any effect. *)
Theorem old_regime_deduction_caps (g c d h o : float) :
  ((150000 <=? c) = true ->
   calculate_tax (Build_TaxCalculationRequest g c d h o "old") =
   calculate_tax (Build_TaxCalculationRequest g 150000 d h o "old")) /\
  ((75000 <=? d) = true ->
   calculate_tax (Build_TaxCalculationRequest g c d h o "old") =
   calculate_tax (Build_TaxCalculationRequest g c 75000 h o "old")).
Proof.
  split; intros H; unfold calculate_tax, regime_branch; cbn.
  - rewrite (Binary64.min_cap c 150000) by (closed_float || exact H).
    reflexivity.
  - rewrite (Binary64.min_cap d 75000) by (closed_float || exact H).
    reflexivity.
Qed.

Lemma old_regime_deduction_caps_witness :
  calculate_tax (Build_TaxCalculationRequest 1200000 200000 90000 50000 0 "old") =
  calculate_tax (Build_TaxCalculationRequest 1200000 150000 90000 50000 0 "old") /\
  calculate_tax (Build_TaxCalculationRequest 1200000 200000 90000 50000 0 "old") =
  calculate_tax (Build_TaxCalculationRequest 1200000 200000 75000 50000 0 "old").
Proof.
  destruct (old_regime_deduction_caps 1200000 200000 90000 50000 0) as (Hc & Hd).
  split; [apply Hc | apply Hd]; reflexivity.
Defined.

(** X7: a taxable income up to 250,000 under the old regime, or up to
    700,000 under the new one, gives a base tax, cess, total tax and
    effective rate of 0. *)
Theorem no_tax_up_to_exemption_limit (request : TaxCalculationRequest) :
  let r := calculate_tax request in
  (taxable_income r <=?
     (if (regime request =? "old")%string then 250000 else 700000)) = true ->
  tax_amount r = 0 /\ cess r = 0 /\ total_tax r = 0 /\ effective_rate r = 0.
Proof.
  intros r H.
  destruct (calculate_tax_shape request) as (_ & Ha).
  destruct (calculate_tax_fields request) as (_ & _ & Hc & Hs & He & _).
  fold r in Ha, Hc, Hs, He.
  assert (A : tax_amount r = 0).
  { rewrite Ha. unfold base_tax, calculate_tax_old_regime.
    destruct (regime request =? "old")%string; now rewrite H. }
  rewrite A in Hc. change (0 * 0.04) with 0 in Hc.
  rewrite A, Hc in Hs. change (0 + 0) with 0 in Hs.
  split; [exact A | split; [exact Hc | split; [exact Hs | ]]].
  rewrite He, Hs. destruct (0 <? income request) eqn:E.
  - rewrite (Binary64.div_zero_pos _ E). reflexivity.
  - reflexivity.
Qed.

Lemma no_tax_up_to_exemption_limit_witness :
  let r := calculate_tax (old_request 250000) in
  tax_amount r = 0 /\ cess r = 0 /\ total_tax r = 0 /\ effective_rate r = 0.
Proof.
  apply (no_tax_up_to_exemption_limit (old_request 250000)). reflexivity.
Defined.

(** X8: [calculate_tax_old_regime] is non-negative and non-decreasing over
    all floats (NaN apart), across every slab boundary. *)
Theorem old_regime_slab_tax_non_decreasing (t1 t2 : float) :
  (t1 <=? t2) = true ->
  (0 <=? calculate_tax_old_regime t1) = true /\
  (calculate_tax_old_regime t1 <=? calculate_tax_old_regime t2) = true.
Proof.
  intros H. split; [ | now apply calculate_tax_old_regime_monotone].
  change 0 with (calculate_tax_old_regime neg_infinity).
  apply calculate_tax_old_regime_monotone. apply Binary64.neg_infinity_le.
  now apply Binary64.leb_iff in H.
Qed.

Lemma old_regime_slab_tax_non_decreasing_witness :
  (0 <=? calculate_tax_old_regime 500000) = true /\
  (calculate_tax_old_regime 500000 <=? calculate_tax_old_regime 500001) = true.
Proof. apply (old_regime_slab_tax_non_decreasing 500000 500001). reflexivity. Defined.

(** X9: [calculate_tax_new_regime] is non-negative and non-decreasing over
    all floats (NaN apart), across every slab boundary. *)
Theorem new_regime_slab_tax_non_decreasing (t1 t2 : float) :
  (t1 <=? t2) = true ->
  (0 <=? calculate_tax_new_regime t1) = true /\
  (calculate_tax_new_regime t1 <=? calculate_tax_new_regime t2) = true.
Proof.
  intros H. split; [ | now apply calculate_tax_new_regime_monotone].
  change 0 with (calculate_tax_new_regime neg_infinity).
  apply calculate_tax_new_regime_monotone. apply Binary64.neg_infinity_le.
  now apply Binary64.leb_iff in H.
Qed.

Lemma new_regime_slab_tax_non_decreasing_witness :
  (0 <=? calculate_tax_new_regime 1200000) = true /\
  (calculate_tax_new_regime 1200000 <=? calculate_tax_new_regime 1200001) = true.
Proof. apply (new_regime_slab_tax_non_decreasing 1200000 1200001). reflexivity. Defined.

(** * The chat, history and upload routes

    The MongoDB collections are state: a collection is modelled by the list
    of its documents in insertion order, and a handler takes the collection
    and returns the new one with its answer.  The model covers one handler
    run at a time, a database that answers every call, and documents that
    carry every field the handlers read.  What the handlers draw from
    outside (the uuid4 identifiers, the clock, the language model) is an
    argument of the model. *)

From Stdlib Require Import List Sorted.
Import ListNotations.

Local Open Scope nat_scope.
Local Open Scope string_scope.
Local Open Scope list_scope.

(** [raise HTTPException(status_code, detail)] or a returned value. *)
Inductive outcome (A : Type) : Type :=
| Ok (value : A)
| HTTPException (status_code : Z) (detail : string).

Arguments Ok {A} value.
Arguments HTTPException {A} status_code detail.

(** The character "\n". *)
Definition nl : string := String (Ascii.ascii_of_nat 10) EmptyString.

(** [l[-n:]] for [0 < n]. *)
Definition last_items {A : Type} (n : nat) (l : list A) : list A :=
  skipn (length l - n) l.

Module Mongo.
Section Collection.

Context {doc : Type}.

(** [insert_one(d)] *)
Definition insert_one (c : list doc) (d : doc) : list doc := c ++ [d].

(** [find(q)], the filter [q] as a predicate on documents *)
Definition find (q : doc -> bool) (c : list doc) : list doc := filter q c.

(** [delete_many(q)] *)
Definition delete_many (q : doc -> bool) (c : list doc) : list doc :=
  filter (fun d => negb (q d)) c.

Fixpoint insert_sorted (key : doc -> string) (d : doc) (l : list doc) : list doc :=
  match l with
  | [] => [d]
  | d' :: l' =>
      if String.leb (key d) (key d') then d :: l
      else d' :: insert_sorted key d l'
  end.

(** [sort(field, 1)] on a string field: ascending in the binary order of
    strings; documents with equal keys keep their order here (MongoDB
    promises no order between them). *)
Definition sort (key : doc -> string) (c : list doc) : list doc :=
  fold_right (insert_sorted key) [] c.

(** [to_list(length)] *)
Definition to_list (length : nat) (c : list doc) : list doc := firstn length c.

End Collection.
End Mongo.

Module ChatMessage.
Record t := mk {
  id : string;
  session_id : string;
  role : string;
  content : string;
  timestamp : string
}.
End ChatMessage.

Module ChatRequest.
Record t := mk { session_id : string; message : string }.
End ChatRequest.

Module ChatResponse.
Record t := mk { response : string; session_id : string }.
End ChatResponse.

Module DocumentUpload.
Record t := mk {
  id : string;
  filename : string;
  file_type : string;
  purpose : string;
  user_email : string;
  timestamp : string
}.
End DocumentUpload.

(** What [LlmChat(...).with_model(...).send_message(UserMessage(text))] is
    given. *)
Module LlmCall.
Record t := mk {
  api_key : option string;
  session_id : string;
  system_message : string;
  provider : string;
  model : string;
  text : string
}.
End LlmCall.

(** The uploaded part as the handler reads it. *)
Module UploadFile.
Record t := mk { filename : option string; content_type : option string }.
End UploadFile.

Module UploadResponse.
Record t := mk { message : string; document_id : string; filename : string }.
End UploadResponse.

Definition TAX_ASSISTANT_SYSTEM_MESSAGE : string :=
"You are MyCA AI Tax Assistant, an expert Chartered Accountant specializing in Indian taxation. You provide professional advice on:

1. **Income Tax Returns (ITR)**: Filing guidance, tax slabs, deductions under 80C, 80D, HRA exemptions, capital gains
2. **GST Returns**: GSTR-1, GSTR-3B filing, input tax credit, GST rates, compliance
3. **Tax Planning & Savings**: Legal tax-saving strategies, investment options (ELSS, PPF, NPS), HRA optimization
4. **Business Taxation**: For proprietors, partnerships, companies - TDS, advance tax, professional tax
5. **Compliance**: Due dates, penalties, notices handling

Guidelines:
- Always provide accurate, up-to-date information based on Indian tax laws
- Suggest legal tax-saving methods only
- Recommend consulting a CA for complex situations
- Be helpful, professional, and explain concepts clearly
- Use examples with INR amounts when helpful".

Definition in_session (session_id : string) (msg : ChatMessage.t) : bool :=
  (ChatMessage.session_id msg =? session_id)%string.

Section Routes.

(** [str.upper] *)
Variable upper : string -> string.
(** The language model: the reply, or the text of the exception raised. *)
Variable send_message : LlmCall.t -> string + string.
(** [os.environ.get('EMERGENT_LLM_KEY')] *)
Variable EMERGENT_LLM_KEY : option string.
(** The text of the error pydantic raises for a missing file name. *)
Variable validation_error : string.

(** The query both chat routes make:
    [find({"session_id": s}).sort("timestamp", 1).to_list(n)]. *)
Definition session_messages (n : nat) (db : list ChatMessage.t)
    (session_id : string) : list ChatMessage.t :=
  Mongo.to_list n (Mongo.sort ChatMessage.timestamp
                     (Mongo.find (in_session session_id) db)).

Definition context_line (msg : ChatMessage.t) : string :=
  upper (ChatMessage.role msg) ++ ": " ++ ChatMessage.content msg.

(** The text sent to the model, from the history fetched and the request. *)
Definition full_message (history : list ChatMessage.t) (message : string) : string :=
  let context_messages := map context_line (last_items 10 history) in
  match context_messages with
  | [] => message
  | _ :: _ =>
      "Previous conversation:" ++ nl ++ String.concat nl context_messages
      ++ nl ++ nl ++ "User's new question: " ++ message
  end.

Definition chat_prompt (db : list ChatMessage.t) (request : ChatRequest.t) : string :=
  full_message (session_messages 20 db (ChatRequest.session_id request))
               (ChatRequest.message request).

(** [POST /chat].  [id_user], [now_user], [id_assistant], [now_assistant]
    are the identifiers and ISO timestamps the two [ChatMessage]s draw. *)
Definition chat_with_assistant (db : list ChatMessage.t) (request : ChatRequest.t)
    (id_user now_user id_assistant now_assistant : string)
  : outcome ChatResponse.t * list ChatMessage.t :=
  let call :=
    LlmCall.mk EMERGENT_LLM_KEY (ChatRequest.session_id request)
               TAX_ASSISTANT_SYSTEM_MESSAGE "gemini" "gemini-3-flash-preview"
               (chat_prompt db request) in
  match send_message call with
  | inr e => (HTTPException 500 ("Error processing chat: " ++ e), db)
  | inl response =>
      let user_doc :=
        ChatMessage.mk id_user (ChatRequest.session_id request) "user"
                       (ChatRequest.message request) now_user in
      let db := Mongo.insert_one db user_doc in
      let assistant_doc :=
        ChatMessage.mk id_assistant (ChatRequest.session_id request) "assistant"
                       response now_assistant in
      let db := Mongo.insert_one db assistant_doc in
      (Ok (ChatResponse.mk response (ChatRequest.session_id request)), db)
  end.

(** [GET /chat/history/{session_id}]: the list under ["messages"]. *)
Definition get_chat_history (db : list ChatMessage.t) (session_id : string)
  : list ChatMessage.t :=
  session_messages 100 db session_id.

(** [DELETE /chat/history/{session_id}] *)
Definition clear_chat_history (db : list ChatMessage.t) (session_id : string)
  : string * list ChatMessage.t :=
  ("Chat history cleared", Mongo.delete_many (in_session session_id) db).

Definition allowed_types : list string :=
  ["application/pdf"; "image/jpeg"; "image/png"; "application/vnd.ms-excel";
   "application/vnd.openxmlformats-officedocument.spreadsheetml.sheet"].

(** [x in allowed_types], for a content type that may be [None] *)
Definition is_allowed (content_type : option string) : bool :=
  match content_type with
  | Some ct => existsb (String.eqb ct) allowed_types
  | None => false
  end.

(** [POST /upload-document] *)
Definition upload_document (db : list DocumentUpload.t) (file : UploadFile.t)
    (purpose user_email id now : string)
  : outcome UploadResponse.t * list DocumentUpload.t :=
  if negb (is_allowed (UploadFile.content_type file)) then
    (HTTPException 400
       "File type not allowed. Please upload PDF, JPG, PNG, or Excel files.", db)
  else
    match UploadFile.filename file, UploadFile.content_type file with
    | Some filename, Some content_type =>
        let doc_record :=
          DocumentUpload.mk id filename content_type purpose user_email now in
        (Ok (UploadResponse.mk
               "Document uploaded successfully! Our CA will review it within 24 hours."
               (DocumentUpload.id doc_record) filename),
         Mongo.insert_one db doc_record)
    | _, _ => (HTTPException 500 validation_error, db)
    end.

End Routes.

(** ** Facts on the collection model *)

Section CollectionFacts.

Context {doc : Type}.
Variable key : doc -> string.

Lemma ltb_leb_string (a b : string) : String.ltb a b = true -> String.leb a b = true.
Proof. unfold String.ltb, String.leb. now destruct (String.compare a b). Qed.

Lemma in_insert_sorted (d x : doc) (l : list doc) :
  In x (Mongo.insert_sorted key d l) <-> x = d \/ In x l.
Proof.
  induction l as [ | d' l IH]; cbn [Mongo.insert_sorted].
  - cbn. intuition auto.
  - destruct (String.leb (key d) (key d')); cbn [In] in *; rewrite ?IH; intuition auto.
Qed.

Lemma in_sort (x : doc) (c : list doc) : In x (Mongo.sort key c) <-> In x c.
Proof.
  unfold Mongo.sort. induction c as [ | d c IH]; cbn [fold_right In].
  - tauto.
  - rewrite in_insert_sorted, IH. intuition auto.
Qed.

Lemma length_insert_sorted (d : doc) (l : list doc) :
  length (Mongo.insert_sorted key d l) = S (length l).
Proof.
  induction l as [ | d' l IH]; cbn [Mongo.insert_sorted]; [reflexivity | ].
  destruct (String.leb (key d) (key d')); cbn [length]; now rewrite ?IH.
Qed.

Lemma length_sort (c : list doc) : length (Mongo.sort key c) = length c.
Proof.
  unfold Mongo.sort. induction c as [ | d c IH]; cbn [fold_right length];
    [reflexivity | ].
  now rewrite length_insert_sorted, IH.
Qed.

Lemma insert_sorted_app (d : doc) (s r : list doc) :
  (forall b, In b r -> String.ltb (key d) (key b) = true) ->
  Mongo.insert_sorted key d (s ++ r) = Mongo.insert_sorted key d s ++ r.
Proof.
  intros H. induction s as [ | d' s IH]; cbn [app Mongo.insert_sorted].
  - destruct r as [ | b r]; [reflexivity | ].
    cbn [Mongo.insert_sorted]. rewrite ltb_leb_string; [reflexivity | ].
    apply H. now left.
  - destruct (String.leb (key d) (key d')); [reflexivity | ].
    cbn [app]. now rewrite IH.
Qed.

(** Documents that all come later sort after the others. *)
Lemma sort_app_later (l r : list doc) :
  (forall a b, In a l -> In b r -> String.ltb (key a) (key b) = true) ->
  Mongo.sort key (l ++ r) = Mongo.sort key l ++ Mongo.sort key r.
Proof.
  intros H. induction l as [ | a l IH]; [reflexivity | ].
  change (Mongo.sort key ((a :: l) ++ r))
    with (Mongo.insert_sorted key a (Mongo.sort key (l ++ r))).
  rewrite IH by (intros x y Hx Hy; apply H; [now right | exact Hy]).
  rewrite insert_sorted_app; [reflexivity | ].
  intros b Hb. apply H; [now left | exact (proj1 (in_sort b r) Hb)].
Qed.

Definition key_le (a b : doc) : Prop := String.leb (key a) (key b) = true.

Lemma sorted_insert_sorted (d : doc) (l : list doc) :
  Sorted key_le l -> Sorted key_le (Mongo.insert_sorted key d l).
Proof.
  intros H. induction H as [ | d' l Hs IH Hd]; cbn [Mongo.insert_sorted].
  - repeat constructor.
  - destruct (String.leb (key d) (key d')) eqn:E.
    + constructor; [now constructor | constructor; exact E].
    + constructor; [exact IH | ].
      assert (E' : key_le d' d).
      { destruct (String.leb_total (key d) (key d')) as [T | T];
          [congruence | exact T]. }
      destruct Hd as [ | b l Hb]; cbn [Mongo.insert_sorted].
      * now constructor.
      * destruct (String.leb (key d) (key b)); now constructor.
Qed.

Lemma sorted_sort (c : list doc) : Sorted key_le (Mongo.sort key c).
Proof.
  unfold Mongo.sort. induction c as [ | d c IH]; cbn [fold_right].
  - constructor.
  - now apply sorted_insert_sorted.
Qed.

Lemma sorted_firstn (n : nat) (l : list doc) :
  Sorted key_le l -> Sorted key_le (firstn n l).
Proof.
  intros H. revert n. induction H as [ | a l Hs IH Ha]; intros [ | n];
    cbn [firstn]; try constructor.
  - apply IH.
  - destruct Ha as [ | b l Hb]; destruct n; cbn [firstn]; now constructor.
Qed.

Lemma in_firstn (n : nat) (x : doc) (l : list doc) : In x (firstn n l) -> In x l.
Proof.
  intros H. rewrite <- (firstn_skipn n l). apply in_or_app. now left.
Qed.

Lemma find_delete_many_same (q : doc -> bool) (c : list doc) :
  Mongo.find q (Mongo.delete_many q c) = [].
Proof.
  unfold Mongo.find, Mongo.delete_many.
  induction c as [ | d c IH]; cbn [filter]; [reflexivity | ].
  destruct (q d) eqn:E; cbn [negb filter]; [exact IH | ].
  now rewrite E.
Qed.

Lemma find_delete_many_other (p q : doc -> bool) (c : list doc) :
  (forall d, p d = true -> q d = false) ->
  Mongo.find p (Mongo.delete_many q c) = Mongo.find p c.
Proof.
  intros H. unfold Mongo.find, Mongo.delete_many.
  induction c as [ | d c IH]; cbn [filter]; [reflexivity | ].
  destruct (q d) eqn:E; cbn [negb filter].
  - destruct (p d) eqn:E'; [ | exact IH].
    rewrite (H d E') in E. discriminate E.
  - now rewrite IH.
Qed.

End CollectionFacts.

(** ** Properties of the routes *)

Section RouteFacts.

Variable upper : string -> string.
Variable send_message : LlmCall.t -> string + string.
Variable EMERGENT_LLM_KEY : option string.
Variable validation_error : string.

Lemma in_session_iff (s : string) (m : ChatMessage.t) :
  in_session s m = true <-> ChatMessage.session_id m = s.
Proof. unfold in_session. apply String.eqb_eq. Qed.

Lemma find_none (s : string) (db : list ChatMessage.t) :
  (forall m, In m db -> ChatMessage.session_id m <> s) ->
  Mongo.find (in_session s) db = [].
Proof.
  intros H. unfold Mongo.find. induction db as [ | m db IH]; cbn [filter];
    [reflexivity | ].
  destruct (in_session s m) eqn:E.
  - apply in_session_iff in E. elim (H m); [now left | exact E].
  - apply IH. intros x Hx. apply H. now right.
Qed.

Lemma session_messages_app_later (n : nat) (db new : list ChatMessage.t) (s : string) :
  (forall a b, In a db -> In b new -> in_session s a = true -> in_session s b = true ->
               String.ltb (ChatMessage.timestamp a) (ChatMessage.timestamp b) = true) ->
  session_messages n (db ++ new) s =
  firstn n (session_messages (length db) db s ++
            Mongo.sort ChatMessage.timestamp (Mongo.find (in_session s) new)).
Proof.
  intros H. unfold session_messages, Mongo.to_list, Mongo.find.
  rewrite filter_app, sort_app_later.
  - f_equal. f_equal. symmetry. apply firstn_all2.
    rewrite length_sort. apply filter_length_le.
  - intros a b Ha Hb. apply filter_In in Ha, Hb.
    destruct Ha as (Ha & Sa), Hb as (Hb & Sb). now apply H.
Qed.

(** X10: a session with nothing stored sends the model the user's message
    alone, with no "Previous conversation" header. *)
Theorem chat_prompt_without_history (db : list ChatMessage.t) (request : ChatRequest.t) :
  (forall m, In m db ->
             ChatMessage.session_id m <> ChatRequest.session_id request) ->
  chat_prompt upper db request = ChatRequest.message request.
Proof.
  intros H. unfold chat_prompt, session_messages.
  rewrite (find_none _ _ H). reflexivity.
Qed.

(** X11: once a session holds twenty messages or more, the context quoted to
    the model is the eleventh to the twentieth of them in time order. *)
Theorem chat_prompt_window (db : list ChatMessage.t) (request : ChatRequest.t) :
  let stored :=
    Mongo.sort ChatMessage.timestamp
      (Mongo.find (in_session (ChatRequest.session_id request)) db) in
  20 <= length stored ->
  chat_prompt upper db request =
    ("Previous conversation:" ++ nl
     ++ String.concat nl (map (context_line upper) (firstn 10 (skipn 10 stored)))
     ++ nl ++ nl ++ "User's new question: " ++ ChatRequest.message request)%string.
Proof.
  intros stored Hlen. unfold chat_prompt, session_messages, Mongo.to_list.
  fold stored. unfold full_message, last_items.
  rewrite length_firstn, Nat.min_l by exact Hlen.
  change (20 - 10) with 10. rewrite skipn_firstn_comm. change (20 - 10) with 10.
  assert (L : length (firstn 10 (skipn 10 stored)) = 10).
  { rewrite length_firstn, length_skipn. lia. }
  destruct (firstn 10 (skipn 10 stored)) as [ | m l]; [discriminate L | ].
  reflexivity.
Qed.

(** The two documents a successful exchange stores. *)
Definition exchange_docs (request : ChatRequest.t)
    (id_user now_user id_assistant now_assistant response : string)
  : list ChatMessage.t :=
  [ChatMessage.mk id_user (ChatRequest.session_id request) "user"
                  (ChatRequest.message request) now_user;
   ChatMessage.mk id_assistant (ChatRequest.session_id request) "assistant"
                  response now_assistant].

Lemma chat_with_assistant_db (db : list ChatMessage.t) (request : ChatRequest.t)
    (id_user now_user id_assistant now_assistant : string) :
  let db' := snd (chat_with_assistant upper send_message EMERGENT_LLM_KEY db request
                    id_user now_user id_assistant now_assistant) in
  db' = db \/
  exists response,
    db' = db ++ exchange_docs request id_user now_user id_assistant now_assistant
                              response.
Proof.
  unfold chat_with_assistant.
  destruct (send_message _) as [response | e]; cbn [snd].
  - right. exists response. unfold Mongo.insert_one, exchange_docs.
    now rewrite <- app_assoc.
  - now left.
Qed.

(** X12: in a session that already holds twenty messages, an exchange stored
    with later timestamps changes nothing in the text the next request
    sends to the model: the newer messages are never quoted. *)
Theorem chat_context_frozen_after_twenty
    (db : list ChatMessage.t) (request next : ChatRequest.t)
    (id_user now_user id_assistant now_assistant : string) :
  ChatRequest.session_id next = ChatRequest.session_id request ->
  20 <= length (Mongo.find (in_session (ChatRequest.session_id request)) db) ->
  (forall m, In m db -> in_session (ChatRequest.session_id request) m = true ->
             String.ltb (ChatMessage.timestamp m) now_user = true /\
             String.ltb (ChatMessage.timestamp m) now_assistant = true) ->
  chat_prompt upper
    (snd (chat_with_assistant upper send_message EMERGENT_LLM_KEY db request
            id_user now_user id_assistant now_assistant)) next
  = chat_prompt upper db next.
Proof.
  intros Hs Hlen Hlater.
  destruct (chat_with_assistant_db db request id_user now_user id_assistant
              now_assistant) as [E | (response & E)];
    cbv zeta in E; rewrite E; [reflexivity | ].
  unfold chat_prompt. rewrite Hs. f_equal.
  rewrite session_messages_app_later.
  - rewrite firstn_app.
    assert (L : 20 <= length (session_messages (length db) db
                                (ChatRequest.session_id request))).
    { unfold session_messages, Mongo.to_list.
      rewrite firstn_all2 by (rewrite length_sort; apply filter_length_le).
      now rewrite length_sort. }
    replace (20 - length (session_messages (length db) db
                            (ChatRequest.session_id request))) with 0 by lia.
    rewrite firstn_O, app_nil_r.
    unfold session_messages, Mongo.to_list.
    rewrite firstn_firstn. f_equal.
    apply Nat.min_l. apply Nat.le_trans with (1 := Hlen).
    apply filter_length_le.
  - intros a b Ha Hb Sa _. destruct (Hlater a Ha Sa) as (Hu & Hv).
    destruct Hb as [<- | [<- | []]]; assumption.
Qed.

(** X13: a chat exchange in one session changes neither the history nor the
    next prompt of any other session. *)
Theorem chat_sessions_isolated
    (db : list ChatMessage.t) (request other : ChatRequest.t)
    (id_user now_user id_assistant now_assistant : string) :
  ChatRequest.session_id other <> ChatRequest.session_id request ->
  let db' := snd (chat_with_assistant upper send_message EMERGENT_LLM_KEY db request
                    id_user now_user id_assistant now_assistant) in
  get_chat_history db' (ChatRequest.session_id other)
    = get_chat_history db (ChatRequest.session_id other) /\
  chat_prompt upper db' other = chat_prompt upper db other.
Proof.
  intros Hne db'.
  assert (F : forall n, session_messages n db' (ChatRequest.session_id other)
                        = session_messages n db (ChatRequest.session_id other)).
  { intros n. subst db'.
    destruct (chat_with_assistant_db db request id_user now_user id_assistant
                now_assistant) as [E | (response & E)];
      cbv zeta in E; rewrite E; [reflexivity | ].
    unfold session_messages, Mongo.find. rewrite filter_app.
    assert (N : filter (in_session (ChatRequest.session_id other))
                  (exchange_docs request id_user now_user id_assistant
                     now_assistant response) = []).
    { unfold exchange_docs, in_session. cbn [filter ChatMessage.session_id].
      assert (Q : (ChatRequest.session_id request
                   =? ChatRequest.session_id other)%string = false).
      { apply String.eqb_neq. congruence. }
      now rewrite Q. }
    now rewrite N, app_nil_r. }
  split; [apply F | ].
  unfold chat_prompt. now rewrite F.
Qed.

(** X14: an answered exchange whose timestamps come after the stored ones,
    the user's before the assistant's, shows in the history as the old
    history followed by the user's message and the reply (up to the 100
    messages the route returns); a fresh session shows exactly the two. *)
Theorem chat_exchange_recorded
    (db : list ChatMessage.t) (request : ChatRequest.t)
    (id_user now_user id_assistant now_assistant response : string) :
  send_message
    (LlmCall.mk EMERGENT_LLM_KEY (ChatRequest.session_id request)
                TAX_ASSISTANT_SYSTEM_MESSAGE "gemini" "gemini-3-flash-preview"
                (chat_prompt upper db request)) = inl response ->
  (forall m, In m db -> in_session (ChatRequest.session_id request) m = true ->
             String.ltb (ChatMessage.timestamp m) now_user = true /\
             String.ltb (ChatMessage.timestamp m) now_assistant = true) ->
  String.ltb now_user now_assistant = true ->
  length (Mongo.find (in_session (ChatRequest.session_id request)) db) + 2 <= 100 ->
  let result := chat_with_assistant upper send_message EMERGENT_LLM_KEY db request
                  id_user now_user id_assistant now_assistant in
  fst result = Ok (ChatResponse.mk response (ChatRequest.session_id request)) /\
  get_chat_history (snd result) (ChatRequest.session_id request)
    = get_chat_history db (ChatRequest.session_id request)
      ++ exchange_docs request id_user now_user id_assistant now_assistant response.
Proof.
  intros Hsend Hlater Hua Hroom result.
  assert (E : result =
              (Ok (ChatResponse.mk response (ChatRequest.session_id request)),
               db ++ exchange_docs request id_user now_user id_assistant
                                   now_assistant response)).
  { unfold result, chat_with_assistant. rewrite Hsend.
    unfold Mongo.insert_one, exchange_docs. now rewrite <- app_assoc. }
  rewrite E. cbn [fst snd]. split; [reflexivity | ].
  unfold get_chat_history. rewrite session_messages_app_later.
  - assert (S : Mongo.sort ChatMessage.timestamp
                  (Mongo.find (in_session (ChatRequest.session_id request))
                     (exchange_docs request id_user now_user id_assistant
                        now_assistant response))
                = exchange_docs request id_user now_user id_assistant
                    now_assistant response).
    { unfold exchange_docs, Mongo.find, in_session.
      cbn [filter ChatMessage.session_id]. rewrite String.eqb_refl.
      cbn [Mongo.sort fold_right Mongo.insert_sorted ChatMessage.timestamp].
      now rewrite (ltb_leb_string _ _ Hua). }
    rewrite S.
    assert (A : session_messages (length db) db (ChatRequest.session_id request)
                = session_messages 100 db (ChatRequest.session_id request)).
    { unfold session_messages, Mongo.to_list.
      rewrite !firstn_all2; try reflexivity; rewrite length_sort;
        [lia | apply filter_length_le]. }
    rewrite A. apply firstn_all2.
    rewrite length_app. unfold session_messages, Mongo.to_list.
    rewrite firstn_all2 by (rewrite length_sort; lia).
    rewrite length_sort. cbn [exchange_docs length]. lia.
  - intros a b Ha Hb Sa _. destruct (Hlater a Ha Sa) as (Hu & Hv).
    destruct Hb as [<- | [<- | []]]; assumption.
Qed.

(** X15: after [DELETE /chat/history/{s}] the history of [s] is empty and
    the next prompt of [s] is the bare message, and every other session
    keeps its history. *)
Theorem clear_chat_history_effect
    (db : list ChatMessage.t) (request : ChatRequest.t) (other : string) :
  let cleared := snd (clear_chat_history db (ChatRequest.session_id request)) in
  get_chat_history cleared (ChatRequest.session_id request) = [] /\
  chat_prompt upper cleared request = ChatRequest.message request /\
  (other <> ChatRequest.session_id request ->
   get_chat_history cleared other = get_chat_history db other).
Proof.
  intros cleared. subst cleared. unfold clear_chat_history. cbn [snd].
  unfold get_chat_history, chat_prompt, session_messages.
  rewrite find_delete_many_same. split; [reflexivity | split; [reflexivity | ]].
  intros Hne. rewrite find_delete_many_other; [reflexivity | ].
  intros d Hd. apply in_session_iff in Hd.
  unfold in_session. apply String.eqb_neq. congruence.
Qed.

(** X16: [GET /chat/history/{s}] answers with at most 100 messages, all of
    them stored messages of session [s], oldest first. *)
Theorem get_chat_history_shape (db : list ChatMessage.t) (session_id : string) :
  let messages := get_chat_history db session_id in
  length messages <= 100 /\
  Forall (fun m => In m db /\ ChatMessage.session_id m = session_id) messages /\
  Sorted (fun a b => String.leb (ChatMessage.timestamp a)
                                (ChatMessage.timestamp b) = true) messages.
Proof.
  intros messages. subst messages.
  unfold get_chat_history, session_messages, Mongo.to_list.
  split; [apply firstn_le_length | split].
  - apply Forall_forall. intros m Hm.
    apply in_firstn in Hm.
    apply (proj1 (in_sort ChatMessage.timestamp _ _)) in Hm.
    unfold Mongo.find in Hm.
    apply filter_In in Hm. destruct Hm as (Hin & Hs).
    split; [exact Hin | now apply in_session_iff].
  - apply (sorted_firstn ChatMessage.timestamp). apply sorted_sort.
Qed.

Definition stored_type_allowed (d : DocumentUpload.t) : Prop :=
  In (DocumentUpload.file_type d) allowed_types.

Lemma is_allowed_in (ct : string) :
  is_allowed (Some ct) = true -> In ct allowed_types.
Proof.
  cbn [is_allowed]. intros H. apply existsb_exists in H.
  destruct H as (x & Hx & E). apply String.eqb_eq in E. now subst x.
Qed.

(** X17: an upload stores at most one record, and only one whose content
    type is one of the five allowed: a collection of allowed types stays
    one. *)
Theorem upload_document_keeps_allowed_types
    (db : list DocumentUpload.t) (file : UploadFile.t)
    (purpose user_email id now : string) :
  let db' := snd (upload_document validation_error db file purpose user_email id now) in
  (db' = db \/ exists d, db' = db ++ [d] /\ stored_type_allowed d) /\
  (Forall stored_type_allowed db -> Forall stored_type_allowed db').
Proof.
  intros db'.
  assert (H : db' = db \/ exists d, db' = db ++ [d] /\ stored_type_allowed d).
  { subst db'. unfold upload_document.
    destruct (is_allowed (UploadFile.content_type file)) eqn:A; cbn [negb];
      [ | now left].
    destruct (UploadFile.filename file) as [name | ]; [ | now left].
    destruct (UploadFile.content_type file) as [ct | ]; [ | now left].
    right. eexists. split; [reflexivity | ].
    unfold stored_type_allowed. cbn [DocumentUpload.file_type].
    now apply is_allowed_in. }
  split; [exact H | ].
  intros F. destruct H as [-> | (d & -> & Hd)]; [exact F | ].
  apply Forall_app. split; [exact F | now constructor].
Qed.



End RouteFacts.

(** ** Instances *)

Definition stored_message : ChatMessage.t :=
  ChatMessage.mk "id" "s1" "user" "hello" "2024-01-01T00:00:00+00:00".

Definition twenty_stored : list ChatMessage.t := repeat stored_message 20.

Definition answering (reply : string) (call : LlmCall.t) : string + string :=
  inl reply.

Lemma chat_prompt_without_history_witness :
  chat_prompt (fun s => s) twenty_stored (ChatRequest.mk "s2" "What is 80C?")
  = "What is 80C?".
Proof.
  apply (chat_prompt_without_history (fun s => s) twenty_stored
           (ChatRequest.mk "s2" "What is 80C?")).
  intros m Hm. apply repeat_spec in Hm. subst m. discriminate.
Defined.

Lemma chat_prompt_window_witness :
  chat_prompt (fun s => s) twenty_stored (ChatRequest.mk "s1" "What is 80C?")
  = ("Previous conversation:" ++ nl
     ++ String.concat nl (repeat "user: hello" 10)
     ++ nl ++ nl ++ "User's new question: What is 80C?")%string.
Proof.
  apply (chat_prompt_window (fun s => s) twenty_stored
           (ChatRequest.mk "s1" "What is 80C?")).
  apply Nat.le_refl.
Defined.

Lemma twenty_stored_earlier (m : ChatMessage.t) :
  In m twenty_stored -> in_session "s1" m = true ->
  String.ltb (ChatMessage.timestamp m) "2024-01-02T00:00:00+00:00" = true /\
  String.ltb (ChatMessage.timestamp m) "2024-01-02T00:00:05+00:00" = true.
Proof.
  intros Hm _. apply repeat_spec in Hm. subst m. split; reflexivity.
Qed.

Lemma chat_context_frozen_after_twenty_witness :
  chat_prompt (fun s => s)
    (snd (chat_with_assistant (fun s => s) (answering "reply") None twenty_stored
            (ChatRequest.mk "s1" "first") "u" "2024-01-02T00:00:00+00:00"
            "a" "2024-01-02T00:00:05+00:00"))
    (ChatRequest.mk "s1" "second")
  = chat_prompt (fun s => s) twenty_stored (ChatRequest.mk "s1" "second").
Proof.
  apply (chat_context_frozen_after_twenty (fun s => s) (answering "reply") None
           twenty_stored (ChatRequest.mk "s1" "first")
           (ChatRequest.mk "s1" "second")).
  - reflexivity.
  - apply Nat.le_refl.
  - exact twenty_stored_earlier.
Defined.

Lemma chat_sessions_isolated_witness :
  let db' := snd (chat_with_assistant (fun s => s) (answering "reply") None
                    twenty_stored (ChatRequest.mk "s2" "first") "u" "1" "a" "2") in
  get_chat_history db' "s1" = get_chat_history twenty_stored "s1" /\
  chat_prompt (fun s => s) db' (ChatRequest.mk "s1" "second")
  = chat_prompt (fun s => s) twenty_stored (ChatRequest.mk "s1" "second").
Proof.
  apply (chat_sessions_isolated (fun s => s) (answering "reply") None twenty_stored
           (ChatRequest.mk "s2" "first") (ChatRequest.mk "s1" "second")).
  discriminate.
Defined.

Lemma chat_exchange_recorded_witness :
  let result := chat_with_assistant (fun s => s) (answering "reply") None
                  twenty_stored (ChatRequest.mk "s1" "first")
                  "u" "2024-01-02T00:00:00+00:00" "a" "2024-01-02T00:00:05+00:00" in
  fst result = Ok (ChatResponse.mk "reply" "s1") /\
  get_chat_history (snd result) "s1"
  = get_chat_history twenty_stored "s1"
    ++ [ChatMessage.mk "u" "s1" "user" "first" "2024-01-02T00:00:00+00:00";
        ChatMessage.mk "a" "s1" "assistant" "reply" "2024-01-02T00:00:05+00:00"].
Proof.
  apply (chat_exchange_recorded (fun s => s) (answering "reply") None
           twenty_stored (ChatRequest.mk "s1" "first")
           "u" "2024-01-02T00:00:00+00:00" "a" "2024-01-02T00:00:05+00:00" "reply").
  - reflexivity.
  - exact twenty_stored_earlier.
  - reflexivity.
  - repeat constructor.
Defined.

Lemma clear_chat_history_effect_witness :
  let cleared := snd (clear_chat_history
                        (twenty_stored ++ [ChatMessage.mk "x" "s2" "user" "hi" "1"])
                        "s1") in
  get_chat_history cleared "s1" = [] /\
  get_chat_history cleared "s2" = [ChatMessage.mk "x" "s2" "user" "hi" "1"].
Proof.
  destruct (clear_chat_history_effect (fun s => s)
              (twenty_stored ++ [ChatMessage.mk "x" "s2" "user" "hi" "1"])
              (ChatRequest.mk "s1" "q") "s2") as (H1 & _ & H2).
  split; [exact H1 | ]. apply H2. discriminate.
Defined.

Lemma upload_document_keeps_allowed_types_witness :
  Forall stored_type_allowed
    (snd (upload_document "missing" []
            (UploadFile.mk (Some "form16.pdf") (Some "application/pdf"))
            "itr" "a@b.in" "d1" "2024-01-02T00:00:00+00:00")) /\
  snd (upload_document "missing" []
         (UploadFile.mk (Some "run.exe") (Some "application/x-msdownload"))
         "itr" "a@b.in" "d2" "2024-01-02T00:00:00+00:00") = [].
Proof.
  split.
  - apply (upload_document_keeps_allowed_types "missing" []). constructor.
  - reflexivity.
Defined.
